(** * PyTorch_Seg: the metric engine, the checkpoint loader and the
      early-stopping policy, embedded and verified

    The development follows [utils.py]; the early-stopping policy follows
    its description, its module not being among the sources.  Label maps are the
    flattened arrays that [evaluate_segmentation] passes around, i.e. lists
    of integers.  Python exceptions are values of an error monad.  Floating
    point numbers are idealised as exact rationals ([Q]); the only
    non-finite values the code can produce come from numpy's element-wise
    division and are kept as separate constructors of [npfloat]. *)

From Stdlib Require Import ZArith QArith Lia.
From stdpp Require Import base tactics option list sorting strings pretty gmap.

Local Open Scope Z_scope.

(** ** Exceptions and the error monad *)

Inductive exn : Type :=
  | IndexError
  | ZeroDivisionError
  | KeyError (key : string)
  | ValueError (msg : string)
  | RuntimeError (msg : string).

Inductive result (A : Type) : Type :=
  | Ok (a : A)
  | Raise (e : exn).
Arguments Ok {A} a.
Arguments Raise {A} e.

Definition result_bind {A B} (f : A → result B) (m : result A) : result B :=
  match m with
  | Ok a => f a
  | Raise e => Raise e
  end.

#[global] Instance result_ret : MRet result := λ A a, Ok a.
#[global] Instance result_mbind : MBind result := λ A B f m, result_bind f m.

Definition is_Ok {A} (m : result A) : Prop := ∃ a, m = Ok a.
Definition is_Raise {A} (m : result A) : Prop := ∃ e, m = Raise e.

(** [for x in xs: s = body(x, s)], stopping at the first exception. *)
Fixpoint foldM {A S} (body : A → S → result S) (xs : list A) (s : S) : result S :=
  match xs with
  | [] => Ok s
  | x :: xs' => s' ← body x s; foldM body xs' s'
  end.

(** [for i in range(n)] *)
Definition for_range {S} (n : nat) (body : nat → S → result S) (s : S) : result S :=
  foldM body (seq 0 n) s.

(** [for index, val in enumerate(xs)] *)
Definition for_enumerate {A S} (xs : list A) (body : nat → A → S → result S) (s : S)
  : result S :=
  foldM (λ iv, body iv.1 iv.2) (zip (seq 0 (length xs)) xs) s.

(** [l[i]] for a non-negative index into an array, tensor or list. *)
Definition getitem {A} (l : list A) (i : nat) : result A :=
  match l !! i with
  | Some x => Ok x
  | None => Raise IndexError
  end.

(** Position denoted by a Python index [z] into a list of length [n]:
    negative indices count from the end. *)
Definition py_index (n : nat) (z : Z) : result nat :=
  if decide (0 ≤ z < Z.of_nat n) then Ok (Z.to_nat z)
  else if decide (- Z.of_nat n ≤ z < 0) then Ok (Z.to_nat (Z.of_nat n + z))
  else Raise IndexError.

(** Python's [x / y] on floats. *)
Definition py_div (x y : Q) : result Q :=
  if Qeq_bool y 0 then Raise ZeroDivisionError else Ok (x / y)%Q.

(** ** The numpy operations the metrics use *)

Inductive npfloat : Type :=
  | Fin (q : Q)
  | Inf
  | NaN.

(** Element-wise [I / U] on float arrays: no exception, [nan] for [0/0] and
    [inf] for [x/0]. *)
Definition np_true_divide (i u : Q) : npfloat :=
  if Qeq_bool u 0 then (if Qeq_bool i 0 then NaN else Inf) else Fin (i / u)%Q.

(** [a == v] for an integer array [a] and a scalar [v]. *)
Definition np_eq (a : list Z) (v : Z) : list bool := (λ x, x =? v) <$> a.

(** [np.sum] of a boolean array. *)
Definition np_sum (m : list bool) : Z := foldr (λ b acc, Z.b2z b + acc) 0 m.

(** [np.unique]: the sorted distinct values. *)
Definition np_unique (a : list Z) : list Z := merge_sort Z.le (remove_dups a).

(** Element-wise binary operation on two one-dimensional arrays, with numpy's
    broadcasting rule: equal lengths, or one of them of length one. *)
Definition np_broadcast2 (f : bool → bool → bool) (a b : list bool)
  : result (list bool) :=
  if decide (length a = length b) then Ok (zip_with f a b)
  else match a, b with
       | [x], _ => Ok (f x <$> b)
       | _, [y] => Ok ((λ x, f x y) <$> a)
       | _, _ => Raise (ValueError "operands could not be broadcast together")
       end.

Definition np_logical_and := np_broadcast2 andb.
Definition np_logical_or := np_broadcast2 orb.

(** ** utils.py: the metric engine *)

Definition smooth : Q := 1 # 10000.

(** [compute_iou(pred, label)] *)
Definition compute_iou (pred label : list Z) : result (list npfloat) :=
  let unique_labels := np_unique label in
  let num_unique_labels := length unique_labels in
  let I := replicate num_unique_labels 0%Q in
  let U := replicate num_unique_labels 0%Q in
  IU ← for_enumerate unique_labels (λ index val '(I, U),
          let pred_i := np_eq pred val in
          let label_i := np_eq label val in
          a ← np_logical_and label_i pred_i;
          let I := <[index := inject_Z (np_sum a)]> I in
          o ← np_logical_or label_i pred_i;
          let U := <[index := inject_Z (np_sum o)]> U in
          mret (I, U)) (I, U);
  mret (zip_with np_true_divide IU.1 IU.2).

(** [dice_coef(y_pred, y_true)] on flattened boolean masks. *)
Definition dice_coef (y_pred y_true : list bool) : result Q :=
  let y_true_f := y_true in
  let y_pred_f := y_pred in
  prod ← np_broadcast2 andb y_true_f y_pred_f;
  let intersection := np_sum prod in
  mret ((2 * inject_Z intersection + smooth)
        / (inject_Z (np_sum y_true_f + np_sum y_pred_f) + smooth))%Q.

(** [dice_coef_multilabel(y_pred, y_true)] *)
Definition dice_coef_multilabel (y_pred y_true : list Z) : result (list Q) :=
  let num_labels := length (np_unique y_true) in
  for_range num_labels (λ index dice,
    d ← dice_coef (np_eq y_true (Z.of_nat index)) (np_eq y_pred (Z.of_nat index));
    mret (dice ++ [d])) [].

(** [compute_global_accuracy(pred, label)] *)
Definition compute_global_accuracy (pred label : list Z) : result Q :=
  let total := length label in
  count ← for_range total (λ i count,
    p ← getitem pred i;
    l ← getitem label i;
    mret (if p =? l then (count + 1)%Q else count)) 0%Q;
  py_div count (inject_Z (Z.of_nat total)).

(** [compute_class_accuracies(pred, label, num_classes)] *)
Definition compute_class_accuracies (pred label : list Z) (num_classes : nat)
  : result (list Q) :=
  let total := (λ val, np_sum (np_eq label (Z.of_nat val))) <$> seq 0 num_classes in
  count ← for_range (length label) (λ i count,
    p ← getitem pred i;
    l ← getitem label i;
    if p =? l then
      k ← py_index (length count) p;
      c ← getitem count k;
      mret (<[k := (c + 1)%Q]> count)
    else mret count) (replicate num_classes 0%Q);
  for_range (length total) (λ i accuracies,
    t ← getitem total i;
    if t =? 0 then mret (accuracies ++ [0%Q])
    else
      c ← getitem count i;
      mret (accuracies ++ [(c / inject_Z t)%Q])) [].

(** Modelled from the spec: [precision_score] and [recall_score] come from
    scikit-learn, which is not among the sources.  With [average=None] they
    return one value per label occurring in either argument, in sorted order;
    an empty denominator gives [0.0] (the default [zero_division] only adds a
    warning), and arguments of different lengths are rejected. *)
Definition prf_divide (num den : Z) : Q :=
  if den =? 0 then 0%Q else (inject_Z num / inject_Z den)%Q.

Definition check_consistent_length (y_true y_pred : list Z) : result unit :=
  if decide (length y_true = length y_pred) then Ok ()
  else Raise (ValueError "Found input variables with inconsistent numbers of samples").

Definition true_positives (y_true y_pred : list Z) (l : Z) : Z :=
  np_sum (zip_with andb (np_eq y_true l) (np_eq y_pred l)).

Definition precision_score (y_true y_pred : list Z) : result (list Q) :=
  _ ← check_consistent_length y_true y_pred;
  mret ((λ l, prf_divide (true_positives y_true y_pred l) (np_sum (np_eq y_pred l)))
          <$> np_unique (y_true ++ y_pred)).

Definition recall_score (y_true y_pred : list Z) : result (list Q) :=
  _ ← check_consistent_length y_true y_pred;
  mret ((λ l, prf_divide (true_positives y_true y_pred l) (np_sum (np_eq y_true l)))
          <$> np_unique (y_true ++ y_pred)).

(** The f-string [f'{name}{i}']. *)
Definition label_key (name : string) (i : nat) : string := name +:+ pretty i.

Section evaluation.
(** [CONFIG.IMAGE.MASK_LABELS]; config.yaml is not among the sources. *)
Variable MASK_LABELS : nat.

(** [evaluate_segmentation(pred, label, score_averaging=None)] on maps
    that are already flat. *)
Definition evaluate_segmentation (pred label : list Z)
  : result (gmap string npfloat) :=
  let flat_pred := pred in
  let flat_label := label in
  global_accuracy ← compute_global_accuracy flat_pred flat_label;
  prec ← precision_score flat_pred flat_label;
  rec ← recall_score flat_pred flat_label;
  iou ← compute_iou flat_pred flat_label;
  dice ← dice_coef_multilabel flat_pred flat_label;
  let dict_eval : gmap string npfloat := {[ "accuracy" := Fin global_accuracy ]} in
  for_range MASK_LABELS (λ i dict_eval,
    p ← getitem prec i;
    let dict_eval := <[label_key "accuracy_label_" i := Fin p]> dict_eval in
    r ← getitem rec i;
    let dict_eval := <[label_key "recall_label_" i := Fin r]> dict_eval in
    u ← getitem iou i;
    let dict_eval := <[label_key "iou_label_" i := u]> dict_eval in
    d ← getitem dice i;
    let dict_eval := <[label_key "dice_label_" i := Fin d]> dict_eval in
    mret dict_eval) dict_eval.
End evaluation.

(** A tensor as the callers hold it: its shape and its entries in row-major
    order. *)
Record tensor : Type := mkTensor {
  shape : list nat;
  entries : list Z
}.

(** [t.flatten()] *)
Definition flatten (t : tensor) : list Z := entries t.

(** [evaluate_segmentation(pred, label)] on tensors of any shape: its first
    two statements flatten both arguments and nothing looks at the shapes. *)
Definition evaluate_segmentation_tensors (MASK_LABELS : nat) (pred label : tensor)
  : result (gmap string npfloat) :=
  evaluate_segmentation MASK_LABELS (flatten pred) (flatten label).

(** ** utils.py: loading a checkpoint *)

(** The Python values a checkpoint is made of. *)
#[warnings="-register-all"]
Inductive pyval : Type :=
  | PNone
  | PInt (z : Z)
  | PTensor (data : list Z)
  | PDict (d : gmap string pyval).

(** [d[key]] on a dict. *)
Definition dict_getitem (d : gmap string pyval) (key : string) : result pyval :=
  match d !! key with
  | Some v => Ok v
  | None => Raise (KeyError key)
  end.

(** The framework objects ([model], [optimizer], [scheduler]) are external:
    each is given by the outcome of its [load_state_dict] on a value. *)
Inductive target : Type := Model | Optimizer | Scheduler.

Record torch_object : Type := { load_state_dict : pyval → result unit }.

(** A call of [load_state_dict] that was made, in program order. *)
Definition load_call : Type := target * pyval.

(** Computations that record the [load_state_dict] calls they make and may
    raise. *)
Definition LoadM (A : Type) : Type := list load_call → list load_call * result A.

Definition load_ret {A} (a : A) : LoadM A := λ tr, (tr, Ok a).

Definition load_bind {A B} (m : LoadM A) (k : A → LoadM B) : LoadM B :=
  λ tr, match m tr with
        | (tr', Ok a) => k a tr'
        | (tr', Raise e) => (tr', Raise e)
        end.

Definition load_lift {A} (r : result A) : LoadM A := λ tr, (tr, r).

Definition call_load (t : target) (o : torch_object) (v : pyval) : LoadM unit :=
  λ tr, (tr ++ [(t, v)], load_state_dict o v).

(** [try: body  except KeyError as e: handler(e)] *)
Definition try_except_KeyError {A} (body : LoadM A) (handler : string → LoadM A)
  : LoadM A :=
  λ tr, match body tr with
        | (tr', Raise (KeyError k)) => handler k tr'
        | r => r
        end.

#[global] Instance load_mret : MRet LoadM := λ A, load_ret.
#[global] Instance load_mbind : MBind LoadM := λ A B k m, load_bind m k.

Definition dquote : string := String (Ascii.ascii_of_nat 34) EmptyString.
Definition squote : string := String (Ascii.ascii_of_nat 39) EmptyString.

(** [repr] of a [str].  A character of the model is a code point below 256.
    The quote is the single one unless the text holds a single and no double
    quote; the quote and the backslash get a backslash, tab, newline and
    carriage return their letter, every other non-printable code point
    (below 32, 127 to 160, and 173) its two-digit hexadecimal escape. *)
Definition hex_digit (n : nat) : Ascii.ascii :=
  Ascii.ascii_of_nat (if (n <? 10)%nat then 48 + n else 87 + n).

Definition py_isprintable (c : Ascii.ascii) : bool :=
  let n := Ascii.nat_of_ascii c in
  ((32 <=? n)%nat && (n <? 127)%nat) || ((161 <=? n)%nat && negb (n =? 173)%nat).

Definition py_escape (quote c : Ascii.ascii) : string :=
  let n := Ascii.nat_of_ascii c in
  let backslash := Ascii.ascii_of_nat 92 in
  if ((n =? Ascii.nat_of_ascii quote)%nat || (n =? 92)%nat)%bool then
    String backslash (String c EmptyString)
  else if (n =? 9)%nat then String backslash "t"
  else if (n =? 10)%nat then String backslash "n"
  else if (n =? 13)%nat then String backslash "r"
  else if py_isprintable c then String c EmptyString
  else String backslash
         ("x" +:+ String (hex_digit (n / 16))
                    (String (hex_digit (n mod 16)) EmptyString)).

Fixpoint string_has (c : Ascii.ascii) (s : string) : bool :=
  match s with
  | EmptyString => false
  | String c' s' => (Ascii.nat_of_ascii c =? Ascii.nat_of_ascii c')%nat || string_has c s'
  end.

Fixpoint py_escape_all (quote : Ascii.ascii) (s : string) : string :=
  match s with
  | EmptyString => EmptyString
  | String c s' => py_escape quote c +:+ py_escape_all quote s'
  end.

Definition py_repr (s : string) : string :=
  let single := Ascii.ascii_of_nat 39 in
  let double := Ascii.ascii_of_nat 34 in
  let quote := if string_has single s && negb (string_has double s)
               then double else single in
  String quote (py_escape_all quote s +:+ String quote EmptyString).

(** The message [f'Key {e} is different from expected "state_dict"'], where
    [e] is the [KeyError] for [key], printed as [repr(key)]. *)
Definition key_message (key : string) : string :=
  "Key " +:+ py_repr key +:+ " is different from expected "
    +:+ dquote +:+ "state_dict" +:+ dquote.

(** [load_checkpoint(checkpoint, model, optimizer, scheduler)]; the value
    returned is [None] on the first path and [checkpoint["epoch"]] on the
    second. *)
Definition load_checkpoint (checkpoint : gmap string pyval) (model : torch_object)
    (optimizer scheduler : option torch_object) : LoadM (option pyval) :=
  try_except_KeyError
    (sd ← load_lift (dict_getitem checkpoint "state_dict");
     _ ← call_load Model model sd;
     _ ← match optimizer with
         | Some opt =>
             osd ← load_lift (dict_getitem checkpoint "optimizer");
             call_load Optimizer opt osd
         | None => mret ()
         end;
     _ ← match scheduler with
         | Some sch =>
             ssd ← load_lift (dict_getitem checkpoint "scheduler");
             call_load Scheduler sch ssd
         | None => mret ()
         end;
     mret None)
    (λ _,
     _ ← try_except_KeyError
           (call_load Model model (PDict checkpoint))
           (λ e, load_lift (Raise (ValueError (key_message e))));
     epoch ← load_lift (dict_getitem checkpoint "epoch");
     mret (Some epoch)).

(** ** The checkpoint policy *)





(** The files written by [torch.save], by path. *)
Abbreviation disk := (gmap string pyval).



(** ** utils.py: saving a checkpoint *)

(** [save_checkpoint(state, filename="my_checkpoint.pth.tar")] *)
Definition save_checkpoint (state : pyval) (filename : string) (d : disk) : disk :=
  <[filename := state]> d.

(** ** utils.py: check_accuracy *)

(** [a == b] on two flattened tensors, with the broadcasting rule of
    one-dimensional data: equal lengths, or one of them of length one. *)
Definition torch_eq (a b : list Z) : result (list bool) :=
  if decide (length a = length b) then Ok (zip_with Z.eqb a b)
  else match a, b with
       | [x], _ => Ok (Z.eqb x <$> b)
       | _, [y] => Ok ((λ x, x =? y) <$> a)
       | _, _ => Raise (RuntimeError "The size of tensor a must match the size of tensor b")
       end.

(** What a caller can end with besides the exceptions of the metric engine:
    the use of a local variable that no loop iteration has assigned. *)
Inductive failure : Type :=
  | Raised (e : exn)
  | UnboundLocalError (name : string).

Inductive outcome (A : Type) : Type :=
  | Returns (a : A)
  | Fails (f : failure).
Arguments Returns {A} a.
Arguments Fails {A} f.

(** The state of the loop of [check_accuracy]: the two counters and
    [dict_eval], which is unassigned before the first batch. *)
Definition accuracy_state : Type := Z * Z * option (gmap string npfloat).

Section check_accuracy.
Variable MASK_LABELS : nat.

(** One batch of [check_accuracy]; the batch is given by the predicted label
    map [preds_labels] (the arg-max of the delegated model output) and the
    ground truth [y], both flattened. *)
Definition check_accuracy_batch (batch : list Z * list Z) (st : accuracy_state)
  : result accuracy_state :=
  let '(preds_labels, y) := batch in
  let '(num_correct, num_pixels, _) := st in
  eq ← torch_eq preds_labels y;
  let num_correct := num_correct + np_sum eq in
  let num_pixels := num_pixels + Z.of_nat (length preds_labels) in
  dict_eval ← evaluate_segmentation MASK_LABELS preds_labels y;
  mret (num_correct, num_pixels, Some dict_eval).

(** [check_accuracy(loader, model, device)] *)
Definition check_accuracy (loader : list (list Z * list Z))
  : outcome (Z * Z * gmap string npfloat) :=
  match foldM check_accuracy_batch loader (0, 0, None) with
  | Raise e => Fails (Raised e)
  | Ok (num_correct, num_pixels, Some dict_eval) =>
      Returns (num_correct, num_pixels, dict_eval)
  | Ok (_, _, None) => Fails (UnboundLocalError "dict_eval")
  end.
End check_accuracy.

(** ** utils.py: get_weights *)

(** An image as [cv2.imread] returns it: an array of shape
    [(height, width, channels)], here with its entries in one list. *)
Record image : Type := mkImage {
  height : nat;
  width : nat;
  channels : nat;
  pixels : list Z
}.

(** [np.divide(m, den, out=0.0, where=den != 0)] on one entry: a zero
    denominator leaves the zero of [out], [inf] gives zero and [nan]
    (which is different from zero) gives [nan]. *)
Definition np_divide_where (m : Q) (den : npfloat) : npfloat :=
  match den with
  | Fin q => if Qeq_bool q 0 then Fin 0 else Fin (m / q)
  | Inf => Fin 0
  | NaN => NaN
  end.

(** The state of the loop of [get_weights]: [weights], [total_pixels] and the
    variable [mask], unassigned before the first file. *)
Definition weights_state : Type := list Q * Z * option image.

(** The loop body of [get_weights] for one image that was read. *)
Definition get_weights_step (num_labels : nat) (st : weights_state) (mask : image)
  : weights_state :=
  let '(weights, total_pixels, _) := st in
  let total_pixels :=
    if total_pixels =? 0 then Z.of_nat (width mask) * Z.of_nat (channels mask)
    else total_pixels in
  let temp := (λ i, np_sum (np_eq (pixels mask) (Z.of_nat i))) <$> seq 0 num_labels in
  let weights := zip_with (λ w t, (w + inject_Z t)%Q) weights temp in
  (weights, total_pixels, Some mask).

(** [get_weights(mask_dir, num_labels, device, multiplier)], given the images
    read from the [.png] files of [mask_dir] in listing order. *)
Definition get_weights (masks : list image) (num_labels : nat) (multiplier : list Q)
  : outcome (list npfloat) :=
  let weights := replicate num_labels 0%Q in
  let '(weights, total_pixels, mask) :=
    foldl (get_weights_step num_labels) (weights, 0, None) masks in
  match mask with
  | None => Fails (UnboundLocalError "mask")
  | Some mask =>
      let den := (λ w, np_true_divide w
                         (inject_Z (total_pixels * Z.of_nat (height mask))))
                   <$> weights in
      if decide (length multiplier = length den) then
        Returns (zip_with np_divide_where multiplier den)
      else match den with
           | [d] => Returns ((λ m, np_divide_where m d) <$> multiplier)
           | _ => Fails (Raised (ValueError "non-broadcastable output operand"))
           end
  end.

(** ** Quantities the properties are stated with *)

(** The simultaneous scan of prediction and label that an index loop over
    [range(len(label))] amounts to ([foldM_scan2] below); it fails when
    [pred] runs out first. *)
Fixpoint scan2 {T} (step : Z → Z → T → result T) (pred label : list Z) (s : T)
  {struct label} : result T :=
  match label with
  | [] => Ok s
  | l :: label' =>
      match pred with
      | [] => Raise IndexError
      | p :: pred' => s' ← step p l s; scan2 step pred' label' s'
      end
  end.

(** Number of positions, up to the shorter length, where the maps agree. *)
Definition agreements (pred label : list Z) : Z := np_sum (zip_with Z.eqb pred label).

(** The loop body of [compute_global_accuracy] once [pred[i]] and [label[i]]
    are read. *)
Definition accuracy_step (p l : Z) (count : Q) : result Q :=
  Ok (if p =? l then (count + 1)%Q else count).

(** The Dice value of three counts: intersection and the two mask sizes. *)
Definition dice_value (inter size_a size_b : Z) : Q :=
  ((2 * inject_Z inter + smooth) / (inject_Z (size_a + size_b) + smooth))%Q.

(** Number of pixels of class [c] in a map. *)
Definition class_pixels (m : list Z) (c : Z) : Z := np_sum (np_eq m c).

(** The Dice value of the masks [pred == c] and [label == c]. *)
Definition class_dice (pred label : list Z) (c : Z) : Q :=
  dice_value (true_positives pred label c) (class_pixels pred c) (class_pixels label c).

(** Sizes of the intersection and of the union of the masks of class [c]. *)
Definition class_intersection (pred label : list Z) (c : Z) : Z :=
  np_sum (zip_with andb (np_eq label c) (np_eq pred c)).

Definition class_union (pred label : list Z) (c : Z) : Z :=
  np_sum (zip_with orb (np_eq label c) (np_eq pred c)).

(** The IoU entry of class [c]. *)
Definition class_iou (pred label : list Z) (c : Z) : npfloat :=
  np_true_divide (inject_Z (class_intersection pred label c))
                 (inject_Z (class_union pred label c)).

(** The loop body of [compute_iou]. *)
Definition iou_step (pred label : list Z) (index : nat) (val : Z)
    (IU : list Q * list Q) : result (list Q * list Q) :=
  let '(accI, accU) := IU in
  let pred_i := np_eq pred val in
  let label_i := np_eq label val in
  a ← np_logical_and label_i pred_i;
  let accI := <[index := inject_Z (np_sum a)]> accI in
  o ← np_logical_or label_i pred_i;
  let accU := <[index := inject_Z (np_sum o)]> accU in
  mret (accI, accU).

(** Correct pixels of class [c] over ground-truth pixels of class [c]. *)
Definition class_accuracy (pred label : list Z) (c : Z) : Q :=
  if class_pixels label c =? 0 then 0%Q
  else (inject_Z (true_positives pred label c) / inject_Z (class_pixels label c))%Q.

(** The body of the counting loop of [compute_class_accuracies] once
    [pred[i]] and [label[i]] are read. *)
Definition class_count_step (p l : Z) (count : list Q) : result (list Q) :=
  if p =? l then
    k ← py_index (length count) p;
    c ← getitem count k;
    mret (<[k := (c + 1)%Q]> count)
  else mret count.

(** The reading of per-class accuracy with the predicted pixels of the class
    as denominator. *)
Definition predicted_class_fraction (pred label : list Z) (c : Z) : Q :=
  if class_pixels pred c =? 0 then 0%Q
  else (inject_Z (true_positives pred label c) / inject_Z (class_pixels pred c))%Q.

(** Every entry of [compute_class_accuracies] is that fraction. *)
Definition accuracy_is_predicted_fraction (pred label : list Z) (num_classes : nat)
  : Prop :=
  ∀ c, (c < num_classes)%nat →
    ∃ accs q, compute_class_accuracies pred label num_classes = Ok accs ∧
              accs !! c = Some q ∧
              (q == predicted_class_fraction pred label (Z.of_nat c))%Q.

(** Maps of different lengths make [compute_global_accuracy] raise. *)
Definition shape_mismatch_fails (pred label : list Z) : Prop :=
  length pred ≠ length label → is_Raise (compute_global_accuracy pred label).

(** The Python value of what [load_checkpoint] returns: the bare [return] of
    the first path gives [None]. *)
Definition returned (r : option pyval) : pyval := default PNone r.

(** Two tensors of different shapes with four entries each. *)
Definition sample_pred_tensor : tensor := mkTensor [2; 2]%nat [0; 1; 0; 0].
Definition sample_label_tensor : tensor := mkTensor [4; 1]%nat [0; 1; 1; 0].

(** A model that accepts every state dict. *)
Definition accepting : torch_object := {| load_state_dict := λ _, Ok () |}.

(** A bare model-state dictionary with a single parameter tensor. *)
Definition bare_state_dict : gmap string pyval :=
  {[ "conv.weight" := PTensor [1; 2] ]}.





(** Sums over the batches of a loader. *)
Definition total_agreements (loader : list (list Z * list Z)) : Z :=
  foldr (λ batch acc, agreements batch.1 batch.2 + acc) 0 loader.

Definition total_pixels_of (loader : list (list Z * list Z)) : Z :=
  foldr (λ batch acc, Z.of_nat (length batch.1) + acc) 0 loader.

(** Number of entries equal to [c] over all the images. *)
Definition label_count (masks : list image) (c : Z) : Z :=
  foldl (λ acc mask, acc + class_pixels (pixels mask) c) 0 masks.

(** A 2 x 2 mask with three equal channels. *)
Definition sample_mask : image :=
  mkImage 2 2 3 [0; 0; 0; 1; 1; 1; 0; 0; 0; 2; 2; 2].

(** A prediction and a ground truth over the classes 0 and 1. *)
Definition sample_pred : list Z := [0; 1; 0; 0].
Definition sample_label : list Z := [0; 1; 1; 0].

(** A structured bundle, a bundle with the model state only, and a model
    that rejects every state dict. *)
Definition sample_bundle : gmap string pyval :=
  {[ "state_dict" := PDict bare_state_dict;
     "optimizer" := PDict ∅;
     "scheduler" := PDict ∅ ]}.

Definition model_only_bundle : gmap string pyval :=
  {[ "state_dict" := PDict bare_state_dict ]}.

Definition rejecting : torch_object :=
  {| load_state_dict := λ _, Raise (RuntimeError "size mismatch") |}.

(** A model whose [load_state_dict] misses the key [conv.bias]. *)
Definition missing_key : torch_object :=
  {| load_state_dict := λ _, Raise (KeyError "conv.bias") |}.

(** Every position where prediction and label agree holds a value that is a
    valid Python index into a list of [n] counters. *)
Definition agreeing_indexable (n : nat) (pred label : list Z) : Prop :=
  ∀ i v, pred !! i = Some v → label !! i = Some v → - Z.of_nat n ≤ v < Z.of_nat n.

(** The loop body of [evaluate_segmentation]. *)
Definition eval_step (prec rec : list Q) (iou : list npfloat) (dice : list Q)
    (i : nat) (dict_eval : gmap string npfloat) : result (gmap string npfloat) :=
  p ← getitem prec i;
  let dict_eval := <[label_key "accuracy_label_" i := Fin p]> dict_eval in
  r ← getitem rec i;
  let dict_eval := <[label_key "recall_label_" i := Fin r]> dict_eval in
  u ← getitem iou i;
  let dict_eval := <[label_key "iou_label_" i := u]> dict_eval in
  d ← getitem dice i;
  let dict_eval := <[label_key "dice_label_" i := Fin d]> dict_eval in
  mret dict_eval.

(** What the loop leaves in the dictionary after the classes [0 .. n-1]. *)
Definition eval_filled (prec rec : list Q) (iou : list npfloat) (dice : list Q)
    (n : nat) (d0 d : gmap string npfloat) : Prop :=
  d !! "accuracy" = d0 !! "accuracy" ∧
  ∀ i, (i < n)%nat →
    ∃ p r u dc,
      prec !! i = Some p ∧ rec !! i = Some r ∧ iou !! i = Some u ∧ dice !! i = Some dc ∧
      d !! label_key "accuracy_label_" i = Some (Fin p) ∧
      d !! label_key "recall_label_" i = Some (Fin r) ∧
      d !! label_key "iou_label_" i = Some u ∧
      d !! label_key "dice_label_" i = Some (Fin dc).

(** A batch is well formed when prediction and ground truth have the same
    number of entries and are not empty. *)
Definition well_formed_batch (batch : list Z * list Z) : Prop :=
  length batch.1 = length batch.2 ∧ batch.2 ≠ [].

(** * Properties *)

(** ** Loops *)

Lemma bind_Ok {A B} (a : A) (k : A → result B) : (Ok a ≫= k) = k a.
Proof. reflexivity. Qed.

Lemma bind_Raise {A B} (e : exn) (k : A → result B) : (Raise e ≫= k) = Raise e.
Proof. reflexivity. Qed.

Lemma getitem_Ok {A} (l : list A) i x : l !! i = Some x → getitem l i = Ok x.
Proof. unfold getitem. by intros ->. Qed.

Lemma getitem_middle {A} (l0 l1 : list A) x : getitem (l0 ++ x :: l1) (length l0) = Ok x.
Proof. apply getitem_Ok, list_lookup_middle. done. Qed.

Lemma getitem_ge {A} (l : list A) i :
  (length l ≤ i)%nat → getitem l i = Raise IndexError.
Proof. intros Hi. unfold getitem. by rewrite lookup_ge_None_2. Qed.

Lemma getitem_end {A} (l : list A) : getitem l (length l) = Raise IndexError.
Proof. by apply getitem_ge. Qed.

Lemma getitem_cases {A} (l : list A) i :
  (∃ x, getitem l i = Ok x) ∨ getitem l i = Raise IndexError.
Proof. unfold getitem. destruct (l !! i); [left; by eexists|by right]. Qed.

Lemma foldM_scan2 {T} (step : Z → Z → T → result T) l1 : ∀ p1 p0 l0 s,
  length p0 = length l0 →
  foldM (λ i s, p ← getitem (p0 ++ p1) i; l ← getitem (l0 ++ l1) i; step p l s)
        (seq (length l0) (length l1)) s
  = scan2 step p1 l1 s.
Proof.
  induction l1 as [|l l1 IH]; intros p1 p0 l0 s Hlen; [reflexivity|].
  cbn [length seq foldM scan2].
  destruct p1 as [|p p1].
  - rewrite app_nil_r, <- Hlen, getitem_end. done.
  - rewrite <- Hlen at 1. rewrite !getitem_middle, !bind_Ok.
    destruct (step p l s) as [s'|e]; [|done]. rewrite !bind_Ok.
    specialize (IH p1 (p0 ++ [p]) (l0 ++ [l]) s').
    assert (length (l0 ++ [l]) = S (length l0)) as Hl
      by (rewrite length_app; cbn; lia).
    rewrite <- !app_assoc, Hl in IH. cbn [app] in IH.
    apply IH. rewrite length_app. cbn. lia.
Qed.

Lemma for_range_scan2 {T} (step : Z → Z → T → result T) pred label s :
  for_range (length label)
    (λ i s, p ← getitem pred i; l ← getitem label i; step p l s) s
  = scan2 step pred label s.
Proof. apply (foldM_scan2 step label pred [] [] s). done. Qed.

(** A loop that only appends one computed value per iteration. *)
Lemma foldM_append {A B} (body : A → list B → result (list B)) (g : A → B) xs :
  ∀ acc,
  (∀ x acc, x ∈ xs → body x acc = Ok (acc ++ [g x])) →
  foldM body xs acc = Ok (acc ++ (g <$> xs)).
Proof.
  induction xs as [|x xs IH]; intros acc Hf; cbn [foldM fmap list_fmap].
  - by rewrite app_nil_r.
  - rewrite (Hf x) by constructor. rewrite bind_Ok.
    rewrite IH by (intros; apply Hf; by constructor).
    by rewrite <- app_assoc.
Qed.

(** ** Counting *)

Lemma np_sum_nil : np_sum [] = 0.
Proof. reflexivity. Qed.

Lemma np_sum_cons b m : np_sum (b :: m) = Z.b2z b + np_sum m.
Proof. reflexivity. Qed.

Ltac np_sum_simpl :=
  cbn [zip_with length andb orb] in *;
  rewrite ?np_sum_cons, ?np_sum_nil in *; cbn [Z.b2z] in *.

Lemma np_sum_nonneg m : 0 ≤ np_sum m.
Proof. induction m as [|[] m IH]; np_sum_simpl; lia. Qed.

Lemma np_sum_le_length m : np_sum m ≤ Z.of_nat (length m).
Proof. induction m as [|[] m IH]; np_sum_simpl; lia. Qed.

Lemma np_eq_cons x a v : np_eq (x :: a) v = (x =? v) :: np_eq a v.
Proof. reflexivity. Qed.

Lemma length_np_eq a v : length (np_eq a v) = length a.
Proof. apply length_fmap. Qed.

Lemma np_sum_and_self m : np_sum (zip_with andb m m) = np_sum m.
Proof.
  induction m as [|[] m IH]; np_sum_simpl; lia.
Qed.

Lemma np_sum_or_self m : np_sum (zip_with orb m m) = np_sum m.
Proof.
  induction m as [|[] m IH]; np_sum_simpl; lia.
Qed.

(** A value that occurs in the map has at least one pixel. *)
Lemma np_sum_np_eq_pos a v : v ∈ a → 0 < np_sum (np_eq a v).
Proof.
  induction 1 as [x a|x y a _ IH]; rewrite np_eq_cons, np_sum_cons.
  - rewrite Z.eqb_refl. pose proof (np_sum_nonneg (np_eq a x)). cbn. lia.
  - destruct (y =? x); cbn [Z.b2z]; lia.
Qed.

Lemma np_sum_or_ge a : ∀ b, length a = length b → np_sum a ≤ np_sum (zip_with orb a b).
Proof.
  induction a as [|x a IH]; intros [|y b] Hlen; try done.
  cbn [zip_with]. rewrite !np_sum_cons. injection Hlen as Hlen.
  specialize (IH b Hlen). destruct x, y; cbn [orb Z.b2z]; lia.
Qed.

Lemma elem_of_np_unique a v : v ∈ np_unique a ↔ v ∈ a.
Proof.
  unfold np_unique. rewrite merge_sort_Permutation. apply elem_of_remove_dups.
Qed.

Lemma np_unique_nil_inv a : np_unique a = [] → a = [].
Proof.
  intros H. destruct a as [|x a]; [done|].
  assert (x ∈ np_unique (x :: a)) as Hx by (apply elem_of_np_unique; constructor).
  rewrite H in Hx. by apply elem_of_nil in Hx.
Qed.

(** ** Rationals *)

Lemma Qplus_inject_Z_1 z : (inject_Z z + 1)%Q = inject_Z (z + 1).
Proof. unfold Qplus, inject_Z. cbn. f_equal. lia. Qed.

Lemma Qeq_bool_inject_Z z : Qeq_bool (inject_Z z) 0 = (z =? 0).
Proof. by destruct z. Qed.

Lemma py_div_inject_Z x t : t ≠ 0 → py_div x (inject_Z t) = Ok (x / inject_Z t)%Q.
Proof.
  intros Ht. unfold py_div. rewrite Qeq_bool_inject_Z.
  by apply Z.eqb_neq in Ht as ->.
Qed.

Lemma Qdiv_inject_Z_same z : z ≠ 0 → (inject_Z z / inject_Z z == 1)%Q.
Proof.
  intros Hz. apply Qmult_inv_r. unfold Qeq, inject_Z. cbn. lia.
Qed.

(** ** compute_global_accuracy *)

Lemma accuracy_step_eq p l count :
  accuracy_step p l count = Ok (if p =? l then (count + 1)%Q else count).
Proof. reflexivity. Qed.

Lemma compute_global_accuracy_scan pred label :
  compute_global_accuracy pred label
  = count ← scan2 accuracy_step pred label 0%Q;
    py_div count (inject_Z (Z.of_nat (length label))).
Proof.
  unfold compute_global_accuracy.
  by rewrite (for_range_scan2 accuracy_step pred label).
Qed.

Lemma scan2_accuracy_short label : ∀ pred count,
  (length pred < length label)%nat →
  scan2 accuracy_step pred label count = Raise IndexError.
Proof.
  induction label as [|l label IH]; intros [|p pred] count Hlen;
    cbn [length] in Hlen; try lia; [done|].
  cbn [scan2]. rewrite accuracy_step_eq, bind_Ok.
  apply IH. lia.
Qed.

Lemma scan2_accuracy_count label : ∀ pred acc,
  (length label ≤ length pred)%nat →
  scan2 accuracy_step pred label (inject_Z acc)
  = Ok (inject_Z (acc + agreements pred label)).
Proof.
  unfold agreements.
  induction label as [|l label IH]; intros [|p pred] acc Hlen;
    cbn [length] in Hlen; try lia.
  - cbn. by rewrite Z.add_0_r.
  - cbn. by rewrite Z.add_0_r.
  - cbn [scan2 zip_with]. rewrite accuracy_step_eq, bind_Ok, np_sum_cons.
    destruct (p =? l); cbn [Z.b2z].
    + rewrite Qplus_inject_Z_1, IH by lia. do 2 f_equal. lia.
    + rewrite IH by lia. do 2 f_equal.
Qed.

Lemma agreements_self l : agreements l l = Z.of_nat (length l).
Proof.
  unfold agreements. induction l as [|x l IH]; [done|].
  cbn [zip_with length]. rewrite np_sum_cons, Z.eqb_refl, IH. cbn [Z.b2z]. lia.
Qed.

(** A prediction with fewer entries than the label makes [pred[i]] fail. *)
Lemma compute_global_accuracy_short pred label :
  (length pred < length label)%nat →
  compute_global_accuracy pred label = Raise IndexError.
Proof.
  intros Hlen. rewrite compute_global_accuracy_scan.
  by rewrite scan2_accuracy_short.
Qed.

(** Otherwise the result is the agreement count over [len(label)]. *)
Lemma compute_global_accuracy_long pred label :
  (length label ≤ length pred)%nat →
  compute_global_accuracy pred label
  = py_div (inject_Z (agreements pred label)) (inject_Z (Z.of_nat (length label))).
Proof.
  intros Hlen. rewrite compute_global_accuracy_scan.
  change 0%Q with (inject_Z 0).
  by rewrite (scan2_accuracy_count label pred 0).
Qed.

Lemma compute_global_accuracy_empty pred :
  compute_global_accuracy pred [] = Raise ZeroDivisionError.
Proof. reflexivity. Qed.

Lemma compute_global_accuracy_value pred label :
  label ≠ [] → (length label ≤ length pred)%nat →
  compute_global_accuracy pred label
  = Ok (inject_Z (agreements pred label) / inject_Z (Z.of_nat (length label)))%Q.
Proof.
  intros Hne Hlen. rewrite compute_global_accuracy_long by done.
  apply py_div_inject_Z. destruct label; [done|]. cbn [length]. lia.
Qed.

Lemma compute_global_accuracy_identical l :
  l ≠ [] → ∃ q, compute_global_accuracy l l = Ok q ∧ (q == 1)%Q.
Proof.
  intros Hne. eexists. split; [by apply compute_global_accuracy_value|].
  rewrite agreements_self. apply Qdiv_inject_Z_same.
  destruct l; [done|]. cbn [length]. lia.
Qed.

(** ** dice_coef *)

Lemma zip_with_comm {A B} (f : A → A → B) (Hf : ∀ x y, f x y = f y x) a :
  ∀ b, zip_with f a b = zip_with f b a.
Proof.
  induction a as [|x a IH]; intros [|y b]; cbn; try done.
  by rewrite Hf, IH.
Qed.

Lemma np_broadcast2_comm f (Hf : ∀ x y, f x y = f y x) a b :
  np_broadcast2 f a b = np_broadcast2 f b a.
Proof.
  unfold np_broadcast2.
  destruct (decide (length a = length b)) as [Hab|Hab].
  - rewrite decide_True by done. f_equal. by apply zip_with_comm.
  - rewrite decide_False by done.
    destruct a as [|x [|x' a]], b as [|y [|y' b]]; try done;
      f_equal; apply list_fmap_ext; intros _ z _; apply Hf.
Qed.

Lemma dice_coef_comm a b : dice_coef a b = dice_coef b a.
Proof.
  unfold dice_coef.
  rewrite (np_broadcast2_comm andb andb_comm b a).
  by rewrite (Z.add_comm (np_sum b)).
Qed.

Lemma dice_coef_same_length y_pred y_true :
  length y_pred = length y_true →
  dice_coef y_pred y_true
  = Ok (dice_value (np_sum (zip_with andb y_true y_pred)) (np_sum y_true) (np_sum y_pred)).
Proof.
  intros Hlen. unfold dice_coef, np_broadcast2.
  by rewrite decide_True.
Qed.

(** The denominator is at least the smoothing term, so never zero. *)
Lemma dice_denominator_pos size_a size_b :
  0 ≤ size_a → 0 ≤ size_b → (0 < inject_Z (size_a + size_b) + smooth)%Q.
Proof. intros Ha Hb. unfold Qlt, Qplus, inject_Z, smooth. cbn. lia. Qed.

(** The rational the code computes is the quotient written in the usual
    way, with both sizes added as rationals. *)
Lemma dice_value_formula inter size_a size_b :
  (dice_value inter size_a size_b ==
   (2 * inject_Z inter + smooth) / (inject_Z size_a + inject_Z size_b + smooth))%Q.
Proof. unfold dice_value. by rewrite inject_Z_plus. Qed.

Lemma dice_value_same s : 0 ≤ s → (dice_value s s s == 1)%Q.
Proof.
  intros Hs. unfold dice_value.
  assert (2 * inject_Z s + smooth == inject_Z (s + s) + smooth)%Q as ->
    by (rewrite inject_Z_plus; ring).
  apply Qmult_inv_r.
  pose proof (dice_denominator_pos s s Hs Hs) as Hpos.
  intros Heq. rewrite Heq in Hpos. by apply Qlt_irrefl in Hpos.
Qed.

Lemma dice_coef_self m : ∃ q, dice_coef m m = Ok q ∧ (q == 1)%Q.
Proof.
  eexists. split; [by apply dice_coef_same_length|].
  rewrite np_sum_and_self. apply dice_value_same, np_sum_nonneg.
Qed.

(** ** dice_coef_multilabel *)

Lemma dice_coef_class y_pred y_true c :
  length y_pred = length y_true →
  dice_coef (np_eq y_true c) (np_eq y_pred c) = Ok (class_dice y_pred y_true c).
Proof.
  intros Hlen. rewrite dice_coef_same_length; [done|].
  by rewrite !length_np_eq.
Qed.

(** On maps of the same length the loop yields one Dice value per index
    below the number of distinct labels of [y_true]. *)
Lemma dice_coef_multilabel_same_length y_pred y_true :
  length y_pred = length y_true →
  dice_coef_multilabel y_pred y_true
  = Ok ((λ index, class_dice y_pred y_true (Z.of_nat index))
          <$> seq 0 (length (np_unique y_true))).
Proof.
  intros Hlen. unfold dice_coef_multilabel, for_range.
  rewrite (foldM_append _ (λ index, class_dice y_pred y_true (Z.of_nat index))); [done|].
  intros index acc _. by rewrite dice_coef_class.
Qed.

(** ** compute_iou *)

Lemma iou_step_same_length pred label index val I U :
  length pred = length label →
  iou_step pred label index val (I, U)
  = Ok (<[index := inject_Z (class_intersection pred label val)]> I,
        <[index := inject_Z (class_union pred label val)]> U).
Proof.
  intros Hlen. unfold iou_step, np_logical_and, np_logical_or, np_broadcast2.
  rewrite !decide_True by (by rewrite !length_np_eq). done.
Qed.

Lemma insert_at_end (pre : list Q) v w rest :
  <[length pre := v]> (pre ++ w :: rest) = (pre ++ [v]) ++ rest.
Proof.
  rewrite insert_app_r_alt, Nat.sub_diag by lia. cbn. by rewrite <- app_assoc.
Qed.

(** The enumerate loop fills the two arrays from left to right. *)
Lemma foldM_iou_fill pred label (Hlen : length pred = length label) xs :
  ∀ preI preU,
  length preI = length preU →
  foldM (λ iv, iou_step pred label iv.1 iv.2)
        (zip (seq (length preI) (length xs)) xs)
        (preI ++ replicate (length xs) 0%Q, preU ++ replicate (length xs) 0%Q)
  = Ok (preI ++ ((λ c, inject_Z (class_intersection pred label c)) <$> xs),
        preU ++ ((λ c, inject_Z (class_union pred label c)) <$> xs)).
Proof.
  induction xs as [|x xs IH]; intros preI preU Hpre; [done|].
  cbn [length seq zip zip_with foldM replicate fst snd].
  rewrite iou_step_same_length, bind_Ok by done.
  rewrite (insert_at_end preI), Hpre, (insert_at_end preU).
  specialize (IH (preI ++ [inject_Z (class_intersection pred label x)])
                 (preU ++ [inject_Z (class_union pred label x)])).
  rewrite !length_app in IH. cbn [length] in IH.
  rewrite !Nat.add_1_r, Hpre in IH.
  rewrite IH by lia. cbn [fmap list_fmap]. by rewrite <- !app_assoc.
Qed.

(** On maps of the same length [compute_iou] has one entry per distinct
    label of [label], in sorted order. *)
Lemma compute_iou_same_length pred label :
  length pred = length label →
  compute_iou pred label = Ok (class_iou pred label <$> np_unique label).
Proof.
  intros Hlen. unfold compute_iou, for_enumerate.
  pose proof (foldM_iou_fill pred label Hlen (np_unique label) [] [] eq_refl) as H.
  cbn [app length] in H. unfold iou_step in H.
  rewrite H, bind_Ok. cbn [fst snd mret result_ret]. f_equal.
  rewrite zip_with_fmap_l, zip_with_fmap_r, zip_with_diag. done.
Qed.

(** A label of the ground truth is in its own union, so the division is a
    division by a positive count. *)
Lemma class_union_pos pred label c :
  length pred = length label → c ∈ label → 0 < class_union pred label c.
Proof.
  intros Hlen Hc. unfold class_union.
  pose proof (np_sum_np_eq_pos label c Hc).
  pose proof (np_sum_or_ge (np_eq label c) (np_eq pred c)) as Hor.
  rewrite !length_np_eq in Hor. specialize (Hor (eq_sym Hlen)). lia.
Qed.

Lemma class_iou_finite pred label c :
  length pred = length label → c ∈ label →
  class_iou pred label c
  = Fin (inject_Z (class_intersection pred label c)
         / inject_Z (class_union pred label c)).
Proof.
  intros Hlen Hc. unfold class_iou, np_true_divide.
  rewrite Qeq_bool_inject_Z.
  pose proof (class_union_pos pred label c Hlen Hc).
  by rewrite (proj2 (Z.eqb_neq _ _)) by lia.
Qed.

(** ** compute_class_accuracies *)

Lemma true_positives_cons p pred l label c :
  true_positives (p :: pred) (l :: label) c
  = Z.b2z ((p =? c) && (l =? c)) + true_positives pred label c.
Proof. reflexivity. Qed.

Lemma np_sum_and_le a : ∀ b, np_sum (zip_with andb a b) ≤ np_sum a.
Proof.
  induction a as [|x a IH]; intros [|y b]; np_sum_simpl; try lia.
  - pose proof (np_sum_nonneg a). destruct x; cbn; lia.
  - specialize (IH b). destruct x, y; cbn; lia.
Qed.

Lemma true_positives_le_pred (pred label : list Z) c :
  true_positives pred label c ≤ class_pixels pred c.
Proof. apply np_sum_and_le. Qed.

Lemma true_positives_nonneg (pred label : list Z) c : 0 ≤ true_positives pred label c.
Proof. apply np_sum_nonneg. Qed.

Lemma py_index_in_range n z : 0 ≤ z < Z.of_nat n → py_index n z = Ok (Z.to_nat z).
Proof. intros Hz. unfold py_index. by rewrite decide_True. Qed.

(** The counters after an increment at class [k]. *)
Lemma insert_counter (f : nat → Z) n k :
  (k < n)%nat →
  <[k := (inject_Z (f k) + 1)%Q]> ((λ c, inject_Z (f c)) <$> seq 0 n)
  = (λ c, inject_Z (f c + (if decide (c = k) then 1 else 0))) <$> seq 0 n.
Proof.
  intros Hk. apply list_eq. intros i.
  rewrite list_lookup_insert, !list_lookup_fmap, length_fmap, length_seq.
  destruct (decide (i < n)%nat) as [Hi|Hi].
  - rewrite lookup_seq_lt by done. cbn.
    destruct (decide (k = i)) as [->|Hne].
    + rewrite decide_True by done. rewrite decide_True by done.
      by rewrite Qplus_inject_Z_1.
    + rewrite decide_False by tauto. rewrite decide_False by done.
      by rewrite Z.add_0_r.
  - rewrite lookup_seq_ge by lia. cbn.
    rewrite decide_False by lia. done.
Qed.

Lemma class_count_step_hit l (count : list Q) c :
  0 ≤ l < Z.of_nat (length count) →
  count !! Z.to_nat l = Some c →
  class_count_step l l count = Ok (<[Z.to_nat l := (c + 1)%Q]> count).
Proof.
  intros Hl Hc. unfold class_count_step.
  by rewrite Z.eqb_refl, py_index_in_range, bind_Ok, (getitem_Ok _ _ c).
Qed.

Lemma class_count_step_miss p l (count : list Q) :
  p ≠ l → class_count_step p l count = Ok count.
Proof.
  intros Hne. unfold class_count_step.
  by apply Z.eqb_neq in Hne as ->.
Qed.

Lemma scan2_class_count n label : ∀ pred (f : nat → Z),
  length pred = length label →
  Forall (λ v, 0 ≤ v < Z.of_nat n) label →
  scan2 class_count_step pred label ((λ c, inject_Z (f c)) <$> seq 0 n)
  = Ok ((λ c, inject_Z (f c + true_positives pred label (Z.of_nat c))) <$> seq 0 n).
Proof.
  induction label as [|l label IH]; intros [|p pred] f Hlen Hrange; try done.
  - cbn. f_equal. apply list_fmap_ext. intros _ c _.
    unfold true_positives. cbn. by rewrite Z.add_0_r.
  - apply Forall_cons in Hrange as [Hl Hrange]. injection Hlen as Hlen.
    cbn [scan2].
    destruct (decide (p = l)) as [->|Hpl].
    + assert (Z.to_nat l < n)%nat as Hk by lia.
      rewrite (class_count_step_hit l _ (inject_Z (f (Z.to_nat l))));
        [| by rewrite length_fmap, length_seq
         | by rewrite list_lookup_fmap, lookup_seq_lt].
      rewrite bind_Ok, insert_counter, IH by done.
      f_equal. apply list_fmap_ext. intros _ c _.
      rewrite true_positives_cons, <- Z.add_assoc. do 2 f_equal.
      destruct (decide (c = Z.to_nat l)) as [->|Hne].
      * rewrite Z2Nat.id, Z.eqb_refl by lia. done.
      * rewrite (proj2 (Z.eqb_neq l (Z.of_nat c))) by lia. done.
    + rewrite class_count_step_miss, bind_Ok, IH by done.
      f_equal. apply list_fmap_ext. intros _ c _.
      rewrite true_positives_cons. do 2 f_equal.
      destruct (Z.eqb_spec p (Z.of_nat c)), (Z.eqb_spec l (Z.of_nat c)); cbn; lia.
Qed.

(** On maps of the same length whose ground truth only holds class indices,
    entry [c] is [class_accuracy] of class [c]. *)
Lemma compute_class_accuracies_value pred label num_classes :
  length pred = length label →
  Forall (λ v, 0 ≤ v < Z.of_nat num_classes) label →
  compute_class_accuracies pred label num_classes
  = Ok ((λ c, class_accuracy pred label (Z.of_nat c)) <$> seq 0 num_classes).
Proof.
  intros Hlen Hrange. unfold compute_class_accuracies.
  rewrite (for_range_scan2 class_count_step pred label).
  change (replicate num_classes 0%Q) with (replicate num_classes (inject_Z 0)).
  assert (replicate num_classes (inject_Z 0)
          = (λ c : nat, inject_Z ((λ _, 0) c)) <$> seq 0 num_classes) as ->.
  { apply list_eq. intros i. rewrite list_lookup_fmap.
    destruct (decide (i < num_classes)%nat).
    - by rewrite lookup_replicate_2, lookup_seq_lt.
    - rewrite lookup_seq_ge by lia. apply lookup_replicate_None. lia. }
  rewrite scan2_class_count, bind_Ok by done.
  unfold for_range. rewrite length_fmap, length_seq.
  rewrite (foldM_append _ (λ c, class_accuracy pred label (Z.of_nat c))); [done|].
  intros c acc Hc. apply elem_of_seq in Hc.
  rewrite (getitem_Ok _ _ (class_pixels label (Z.of_nat c))), bind_Ok
    by (by rewrite list_lookup_fmap, lookup_seq_lt by lia).
  unfold class_accuracy. destruct (class_pixels label (Z.of_nat c) =? 0); [done|].
  rewrite (getitem_Ok _ _ (inject_Z (true_positives pred label (Z.of_nat c)))); [done|].
  rewrite list_lookup_fmap, lookup_seq_lt by lia. done.
Qed.

(** ** precision_score and recall_score *)

Lemma true_positives_self l c : true_positives l l c = class_pixels l c.
Proof. apply np_sum_and_self. Qed.

Lemma class_pixels_pos l c : c ∈ l → 0 < class_pixels l c.
Proof. apply np_sum_np_eq_pos. Qed.

Lemma prf_divide_same n : 0 < n → (prf_divide n n == 1)%Q.
Proof.
  intros Hn. unfold prf_divide.
  rewrite (proj2 (Z.eqb_neq n 0)) by lia.
  apply Qdiv_inject_Z_same. lia.
Qed.

Lemma precision_score_same_length y_true y_pred :
  length y_true = length y_pred →
  precision_score y_true y_pred
  = Ok ((λ l, prf_divide (true_positives y_true y_pred l) (class_pixels y_pred l))
          <$> np_unique (y_true ++ y_pred)).
Proof.
  intros Hlen. unfold precision_score, check_consistent_length.
  by rewrite decide_True.
Qed.

Lemma recall_score_same_length y_true y_pred :
  length y_true = length y_pred →
  recall_score y_true y_pred
  = Ok ((λ l, prf_divide (true_positives y_true y_pred l) (class_pixels y_true l))
          <$> np_unique (y_true ++ y_pred)).
Proof.
  intros Hlen. unfold recall_score, check_consistent_length.
  by rewrite decide_True.
Qed.

Lemma precision_score_mismatch y_true y_pred :
  length y_true ≠ length y_pred → is_Raise (precision_score y_true y_pred).
Proof.
  intros Hlen. unfold precision_score, check_consistent_length.
  rewrite decide_False by done. by eexists.
Qed.

(** The position of a value in a list that holds it. *)
Lemma elem_of_position {A} (f : Z → A) (xs : list Z) c :
  c ∈ xs → ∃ i, xs !! i = Some c ∧ (f <$> xs) !! i = Some (f c).
Proof.
  intros [i Hi]%list_elem_of_lookup. exists i. split; [done|].
  by rewrite list_lookup_fmap, Hi.
Qed.

Lemma class_dice_self l c : (class_dice l l c == 1)%Q.
Proof.
  unfold class_dice. rewrite true_positives_self.
  apply dice_value_same, np_sum_nonneg.
Qed.

Lemma class_iou_self l c :
  c ∈ l → ∃ u, class_iou l l c = Fin u ∧ (u == 1)%Q.
Proof.
  intros Hc. eexists. split; [by apply class_iou_finite|].
  unfold class_intersection, class_union.
  rewrite np_sum_and_self, np_sum_or_self.
  apply Qdiv_inject_Z_same. pose proof (class_pixels_pos l c Hc).
  unfold class_pixels in *. lia.
Qed.

(** * The claims *)

(** C5: for a non-empty label map compared with itself, the global accuracy
    is exactly 1, every entry of the multilabel Dice vector is 1, and for
    every class present in the map the Dice coefficient of its mask, its IoU
    entry, its precision entry and its recall entry are all exactly 1. *)
Theorem identical_maps_score_one (l : list Z) :
  l ≠ [] →
  (∃ acc, compute_global_accuracy l l = Ok acc ∧ (acc == 1)%Q) ∧
  ∃ ious precs recs dices,
    compute_iou l l = Ok ious ∧
    precision_score l l = Ok precs ∧
    recall_score l l = Ok recs ∧
    dice_coef_multilabel l l = Ok dices ∧
    Forall (λ d, d == 1)%Q dices ∧
    ∀ c, c ∈ l →
      (∃ d, dice_coef (np_eq l c) (np_eq l c) = Ok d ∧ (d == 1)%Q) ∧
      (∃ i u, np_unique l !! i = Some c ∧ ious !! i = Some (Fin u) ∧ (u == 1)%Q) ∧
      (∃ i p r, np_unique (l ++ l) !! i = Some c ∧
                precs !! i = Some p ∧ (p == 1)%Q ∧
                recs !! i = Some r ∧ (r == 1)%Q).
Proof.
  intros Hne. split; [by apply compute_global_accuracy_identical|].
  do 4 eexists.
  split; [by apply compute_iou_same_length|].
  split; [by apply precision_score_same_length|].
  split; [by apply recall_score_same_length|].
  split; [by apply dice_coef_multilabel_same_length|].
  split.
  { apply Forall_fmap, Forall_forall. intros index _. apply class_dice_self. }
  intros c Hc. split; [apply dice_coef_self|]. split.
  - destruct (class_iou_self l c Hc) as (u & Hu & Hu1).
    destruct (elem_of_position (class_iou l l) (np_unique l) c) as (i & Hi & Hv);
      [by apply elem_of_np_unique|].
    exists i, u. by rewrite <- Hu.
  - assert (c ∈ np_unique (l ++ l)) as Hin
      by (apply elem_of_np_unique, elem_of_app; by left).
    destruct (list_elem_of_lookup_1 _ _ Hin) as [i Hi].
    exists i. do 2 eexists. split; [done|].
    rewrite !list_lookup_fmap, Hi. cbn.
    rewrite true_positives_self.
    pose proof (class_pixels_pos l c Hc).
    repeat split; by apply prf_divide_same.
Qed.

Lemma identical_maps_score_one_witness :
  (∃ acc, compute_global_accuracy [0; 1; 1; 3] [0; 1; 1; 3] = Ok acc ∧ (acc == 1)%Q) ∧
  ∃ ious precs recs dices,
    compute_iou [0; 1; 1; 3] [0; 1; 1; 3] = Ok ious ∧
    precision_score [0; 1; 1; 3] [0; 1; 1; 3] = Ok precs ∧
    recall_score [0; 1; 1; 3] [0; 1; 1; 3] = Ok recs ∧
    dice_coef_multilabel [0; 1; 1; 3] [0; 1; 1; 3] = Ok dices ∧
    Forall (λ d, d == 1)%Q dices ∧
    ∀ c, c ∈ [0; 1; 1; 3] →
      (∃ d, dice_coef (np_eq [0; 1; 1; 3] c) (np_eq [0; 1; 1; 3] c) = Ok d ∧ (d == 1)%Q) ∧
      (∃ i u, np_unique [0; 1; 1; 3] !! i = Some c ∧ ious !! i = Some (Fin u) ∧ (u == 1)%Q) ∧
      (∃ i p r, np_unique ([0; 1; 1; 3] ++ [0; 1; 1; 3]) !! i = Some c ∧
                precs !! i = Some p ∧ (p == 1)%Q ∧
                recs !! i = Some r ∧ (r == 1)%Q).
Proof. apply (identical_maps_score_one [0; 1; 1; 3]). discriminate. Defined.

(** C6: the Dice coefficient is symmetric on masks of the same length. *)
Theorem dice_coef_symmetric (a b : list bool) :
  length a = length b → dice_coef a b = dice_coef b a.
Proof. intros _. apply dice_coef_comm. Qed.

Lemma dice_coef_symmetric_witness :
  dice_coef [true; false; true] [true; true; false]
  = dice_coef [true; true; false] [true; false; true].
Proof. apply (dice_coef_symmetric [true; false; true] [true; true; false]). reflexivity. Defined.

Lemma np_sum_replicate_false n : np_sum (replicate n false) = 0.
Proof. induction n as [|n IH]; [done|]. cbn [replicate]. by rewrite np_sum_cons, IH. Qed.

Lemma zip_with_and_replicate_false n :
  zip_with andb (replicate n false) (replicate n false) = replicate n false.
Proof. induction n as [|n IH]; [done|]. cbn [replicate zip_with andb]. by rewrite IH. Qed.

(** C9: the Dice coefficient of a mask with itself is exactly 1; for an
    all-zero mask, of any length, the quotient is the smoothing term over
    itself. *)
Theorem dice_coef_of_mask_with_itself :
  (∀ m : list bool, ∃ q, dice_coef m m = Ok q ∧ (q == 1)%Q) ∧
  (∀ n : nat,
     dice_coef (replicate n false) (replicate n false)
     = Ok ((2 * inject_Z 0 + smooth) / (inject_Z (0 + 0) + smooth))%Q).
Proof.
  split; [apply dice_coef_self|].
  intros n. rewrite dice_coef_same_length by done.
  by rewrite zip_with_and_replicate_false, np_sum_replicate_false.
Qed.

(** C10: on an empty label map [compute_global_accuracy] divides by zero and
    returns no value; it returns a value exactly when the label map is
    non-empty and the prediction has an entry for each of its positions. *)
Theorem compute_global_accuracy_defined :
  (∀ pred, compute_global_accuracy pred [] = Raise ZeroDivisionError) ∧
  (∀ pred label, is_Ok (compute_global_accuracy pred label)
                 ↔ label ≠ [] ∧ (length label ≤ length pred)%nat).
Proof.
  split; [apply compute_global_accuracy_empty|].
  intros pred label. split.
  - intros [q Hq]. split.
    + intros ->. by rewrite compute_global_accuracy_empty in Hq.
    + destruct (decide (length label ≤ length pred)%nat); [done|].
      by rewrite compute_global_accuracy_short in Hq by lia.
  - intros [Hne Hlen]. eexists. by apply compute_global_accuracy_value.
Qed.

(** C1, as stated, fails: with prediction [0; 0] and ground truth [0; 1] the
    entry of class 0 is 1 (one correct pixel over one ground-truth pixel),
    not 1/2 (one correct pixel over two predicted pixels). *)
Lemma accuracy_is_not_predicted_fraction :
  ¬ accuracy_is_predicted_fraction [0; 0] [0; 1] 2.
Proof.
  intros H. destruct (H 0%nat) as (accs & q & Hrun & Hq & Heq); [lia|].
  vm_compute in Hrun. injection Hrun as <-.
  injection Hq as <-. vm_compute in Heq. discriminate.
Qed.

(** C1, amended: on maps of the same length with class indices below
    [num_classes], the result has one entry per class; the entry of class
    [c] is the number of correctly predicted pixels of class [c] over the
    number of ground-truth pixels of class [c], it is 0 when the ground
    truth has no pixel of class [c], and it is also 0 when no pixel is
    predicted as [c].  No division by zero occurs. *)
Theorem class_accuracies_over_ground_truth (pred label : list Z) (num_classes : nat) :
  length pred = length label →
  Forall (λ v, 0 ≤ v < Z.of_nat num_classes) label →
  ∃ accs, compute_class_accuracies pred label num_classes = Ok accs ∧
    length accs = num_classes ∧
    ∀ c, (c < num_classes)%nat →
      ∃ q, accs !! c = Some q ∧
        (class_pixels label (Z.of_nat c) = 0 → q = 0%Q) ∧
        (class_pixels label (Z.of_nat c) ≠ 0 →
           q = Qdiv (inject_Z (true_positives pred label (Z.of_nat c)))
                    (inject_Z (class_pixels label (Z.of_nat c)))) ∧
        (class_pixels pred (Z.of_nat c) = 0 → (q == 0)%Q).
Proof.
  intros Hlen Hrange. eexists.
  split; [by apply compute_class_accuracies_value|].
  split; [by rewrite length_fmap, length_seq|].
  intros c Hc. eexists.
  split; [by rewrite list_lookup_fmap, lookup_seq_lt|].
  unfold class_accuracy. cbn [Nat.add]. repeat split.
  - by intros ->.
  - intros Hne. by apply Z.eqb_neq in Hne as ->.
  - intros Hzero.
    pose proof (true_positives_le_pred pred label (Z.of_nat c)).
    pose proof (true_positives_nonneg pred label (Z.of_nat c)).
    replace (true_positives pred label (Z.of_nat c)) with 0 by lia.
    destruct (class_pixels label (Z.of_nat c) =? 0); [done|].
    unfold Qdiv. apply Qmult_0_l.
Qed.

Lemma class_accuracies_over_ground_truth_witness :
  ∃ accs, compute_class_accuracies [0; 0; 2] [0; 1; 2] 3 = Ok accs ∧
    length accs = 3%nat ∧
    ∀ c, (c < 3)%nat →
      ∃ q, accs !! c = Some q ∧
        (class_pixels [0; 1; 2] (Z.of_nat c) = 0 → q = 0%Q) ∧
        (class_pixels [0; 1; 2] (Z.of_nat c) ≠ 0 →
           q = Qdiv (inject_Z (true_positives [0; 0; 2] [0; 1; 2] (Z.of_nat c)))
                    (inject_Z (class_pixels [0; 1; 2] (Z.of_nat c)))) ∧
        (class_pixels [0; 0; 2] (Z.of_nat c) = 0 → (q == 0)%Q).
Proof.
  apply (class_accuracies_over_ground_truth [0; 0; 2] [0; 1; 2] 3).
  - reflexivity.
  - repeat constructor; lia.
Defined.

(** C7, as stated, fails: a prediction that is longer than the label goes
    through [compute_global_accuracy] without any error. *)
Lemma longer_prediction_is_accepted : ¬ shape_mismatch_fails [0; 1] [0].
Proof.
  intros H. destruct H as [e He]; [cbn; lia|]. vm_compute in He. discriminate.
Qed.


(** ** evaluate_segmentation on a ground truth that lacks a class *)

Lemma foldM_raises {A T} (body : A → T → result T) e xs :
  (∀ x s, x ∈ xs → is_Ok (body x s) ∨ body x s = Raise e) →
  (∃ x, x ∈ xs ∧ ∀ s, body x s = Raise e) →
  ∀ s, foldM body xs s = Raise e.
Proof.
  induction xs as [|a xs IH]; intros Hbody (x & Hx & Hfail) s.
  - by apply elem_of_nil in Hx.
  - cbn [foldM]. destruct (body a s) as [s'|e'] eqn:Ha.
    + rewrite bind_Ok. apply IH.
      * intros y t Hy. apply Hbody. by constructor.
      * apply elem_of_cons in Hx as [->|Hx]; [|by exists x].
        by rewrite Hfail in Ha.
    + rewrite bind_Raise.
      destruct (Hbody a s) as [[s' Hs]|He]; [constructor|congruence|congruence].
Qed.

Lemma length_compute_iou pred label ious :
  length pred = length label →
  compute_iou pred label = Ok ious → length ious = length (np_unique label).
Proof.
  intros Hlen. rewrite compute_iou_same_length by done.
  intros [= <-]. by rewrite length_fmap.
Qed.

Lemma length_dice_coef_multilabel y_pred y_true dices :
  length y_pred = length y_true →
  dice_coef_multilabel y_pred y_true = Ok dices →
  length dices = length (np_unique y_true).
Proof.
  intros Hlen. rewrite dice_coef_multilabel_same_length by done.
  intros [= <-]. by rewrite length_fmap, length_seq.
Qed.

(** When the ground truth holds fewer distinct labels than [MASK_LABELS],
    the loop that fills the result reads past the end of the IoU vector. *)
Lemma evaluate_segmentation_absent_class MASK_LABELS pred label :
  length pred = length label → label ≠ [] →
  (length (np_unique label) < MASK_LABELS)%nat →
  evaluate_segmentation MASK_LABELS pred label = Raise IndexError.
Proof.
  intros Hlen Hne Habsent. unfold evaluate_segmentation.
  rewrite compute_global_accuracy_value, bind_Ok by (done || lia).
  rewrite precision_score_same_length, bind_Ok by done.
  rewrite recall_score_same_length, bind_Ok by done.
  rewrite compute_iou_same_length, bind_Ok by done.
  rewrite dice_coef_multilabel_same_length, bind_Ok by done.
  unfold for_range. apply foldM_raises.
  - intros i s _.
    repeat (match goal with
            | |- is_Ok (getitem ?l i ≫= _) ∨ _ =>
                destruct (getitem_cases l i) as [[? ->]| ->]
            end; [rewrite !bind_Ok|by right]).
    left. by eexists.
  - exists (length (np_unique label)). split; [apply elem_of_seq; lia|].
    intros s.
    rewrite (getitem_ge (class_iou pred label <$> np_unique label))
      by (by rewrite length_fmap).
    repeat (match goal with
            | |- getitem ?l ?i ≫= _ = _ =>
                destruct (getitem_cases l i) as [[? ->]| ->]
            end; [rewrite bind_Ok|done]).
    done.
Qed.

(** C2, at an input where the ground truth has no pixel of class 2: the IoU
    and Dice vectors have three entries, not four, and [evaluate_segmentation]
    ends in an index error instead of reporting 0.0 for the empty class. *)
Theorem absent_class_breaks_evaluation :
  (∃ ious, compute_iou [0; 1; 3; 3] [0; 1; 3; 3] = Ok ious ∧ length ious = 3%nat) ∧
  (∃ dices, dice_coef_multilabel [0; 1; 3; 3] [0; 1; 3; 3] = Ok dices
            ∧ length dices = 3%nat) ∧
  evaluate_segmentation 4 [0; 1; 3; 3] [0; 1; 3; 3] = Raise IndexError.
Proof.
  split; [|split].
  - eexists. split; [vm_compute; reflexivity|reflexivity].
  - eexists. split; [vm_compute; reflexivity|reflexivity].
  - vm_compute. reflexivity.
Qed.

(** C3, at an input whose ground truth holds the classes 0 and 3 only: the
    multilabel Dice has two values, those of the indices 0 and 1, so the
    absent class 1 gets a value and the present class 3 gets none. *)
Theorem dice_multilabel_skips_class :
  dice_coef_multilabel [0; 3] [0; 3]
  = Ok [class_dice [0; 3] [0; 3] 0; class_dice [0; 3] [0; 3] 1] ∧
  class_pixels [0; 3] 1 = 0 ∧ class_pixels [0; 3] 3 = 1.
Proof. split; [vm_compute; reflexivity|split; reflexivity]. Qed.

(** ** load_checkpoint *)

(** The structured bundle: the three state dicts are handed over in order and
    the call returns [None]. *)
Lemma load_checkpoint_structured checkpoint model opt sch sd osd ssd tr :
  checkpoint !! "state_dict" = Some sd →
  checkpoint !! "optimizer" = Some osd →
  checkpoint !! "scheduler" = Some ssd →
  load_state_dict model sd = Ok () →
  load_state_dict opt osd = Ok () →
  load_state_dict sch ssd = Ok () →
  load_checkpoint checkpoint model (Some opt) (Some sch) tr
  = (tr ++ [(Model, sd); (Optimizer, osd); (Scheduler, ssd)], Ok None).
Proof.
  intros Hsd Hosd Hssd Hm Ho Hs.
  unfold load_checkpoint, try_except_KeyError, mbind, load_mbind, load_bind,
    load_lift, call_load, dict_getitem.
  rewrite Hsd, Hm, Hosd, Ho, Hssd, Hs. cbn. by rewrite <- !app_assoc.
Qed.

(** A bare state dict: the first attempt stops at the missing key before any
    [load_state_dict] call, the fallback is the only call made, and the
    outcome then hangs on the key [epoch]. *)
Lemma load_checkpoint_bare checkpoint model opt sch tr :
  checkpoint !! "state_dict" = None →
  load_state_dict model (PDict checkpoint) = Ok () →
  load_checkpoint checkpoint model opt sch tr
  = (tr ++ [(Model, PDict checkpoint)],
     match checkpoint !! "epoch" with
     | Some epoch => Ok (Some epoch)
     | None => Raise (KeyError "epoch")
     end).
Proof.
  intros Hsd Hm.
  unfold load_checkpoint, try_except_KeyError, mbind, load_mbind, load_bind,
    load_lift, call_load, dict_getitem.
  rewrite Hsd, Hm. by destruct (checkpoint !! "epoch").
Qed.

(** X24: when the checkpoint has no [state_dict] and the fallback
    [load_state_dict] raises [KeyError], [load_checkpoint] raises a
    [ValueError] whose message holds the [repr] of that key. *)
Lemma load_checkpoint_fallback_KeyError checkpoint model opt sch tr key :
  checkpoint !! "state_dict" = None →
  load_state_dict model (PDict checkpoint) = Raise (KeyError key) →
  load_checkpoint checkpoint model opt sch tr
  = (tr ++ [(Model, PDict checkpoint)], Raise (ValueError (key_message key))).
Proof.
  intros Hsd Hm.
  unfold load_checkpoint, try_except_KeyError, mbind, load_mbind, load_bind,
    load_lift, call_load, dict_getitem.
  by rewrite Hsd, Hm.
Qed.

(** C8, at a bare model-state dictionary that the model accepts: the
    fallback [load_state_dict] call is made and succeeds, and the call then
    ends in [KeyError] for the key [epoch] instead of succeeding. *)
Theorem load_checkpoint_bare_state_dict_fails :
  load_checkpoint bare_state_dict accepting (Some accepting) (Some accepting) []
  = ([(Model, PDict bare_state_dict)], Raise (KeyError "epoch")).
Proof. by rewrite load_checkpoint_bare. Qed.

(** ** The checkpoint policy on the loss sequence of the spec *)



(** * Further properties *)

(** ** Ranges *)

Lemma Qdiv_inject_Z_range a n :
  0 ≤ a ≤ n → 0 < n → (0 <= inject_Z a / inject_Z n <= 1)%Q.
Proof.
  intros Ha Hn.
  assert (0 < inject_Z n)%Q as Hpos by (unfold Qlt, inject_Z; cbn; lia).
  split.
  - apply Qle_shift_div_l; [done|]. unfold Qle, Qmult, inject_Z. cbn. lia.
  - apply Qle_shift_div_r; [done|]. unfold Qle, Qmult, inject_Z. cbn. lia.
Qed.

Lemma agreements_range pred label : 0 ≤ agreements pred label ≤ Z.of_nat (length label).
Proof.
  unfold agreements. split; [apply np_sum_nonneg|].
  etrans; [apply np_sum_le_length|]. rewrite length_zip_with. lia.
Qed.

(** X1: whenever [compute_global_accuracy] returns, its value lies between
    0 and 1. *)
Theorem compute_global_accuracy_range pred label q :
  compute_global_accuracy pred label = Ok q → (0 <= q <= 1)%Q.
Proof.
  intros Hq.
  destruct (decide (length label ≤ length pred)%nat) as [Hlen|Hlen];
    [|by rewrite compute_global_accuracy_short in Hq by lia].
  destruct label as [|x label]; [by rewrite compute_global_accuracy_empty in Hq|].
  rewrite compute_global_accuracy_value in Hq by done. injection Hq as <-.
  apply Qdiv_inject_Z_range; [apply agreements_range|]. cbn [length]. lia.
Qed.

Lemma compute_global_accuracy_range_witness :
  ∃ q, compute_global_accuracy [0; 1; 2] [0; 1; 1] = Ok q ∧ (0 <= q <= 1)%Q.
Proof.
  eexists. split; [vm_compute; reflexivity|].
  apply (compute_global_accuracy_range [0; 1; 2] [0; 1; 1]). vm_compute. reflexivity.
Defined.

Lemma agreements_full label : ∀ pred,
  (length label ≤ length pred)%nat →
  agreements pred label = Z.of_nat (length label) ↔ take (length label) pred = label.
Proof.
  unfold agreements.
  induction label as [|l label IH]; intros [|p pred] Hlen; cbn [length] in Hlen;
    try lia; [done|done|].
  cbn [zip_with length take]. rewrite np_sum_cons.
  pose proof (np_sum_le_length (zip_with Z.eqb pred label)) as Hle.
  rewrite length_zip_with in Hle.
  specialize (IH pred ltac:(lia)).
  destruct (Z.eqb_spec p l) as [->|Hne]; cbn [Z.b2z].
  - split.
    + intros H. f_equal. apply IH. lia.
    + intros [= H]. apply IH in H. lia.
  - split; [lia|]. intros [= H _]. done.
Qed.

Lemma Qdiv_inject_Z_one a n : 0 < n → (inject_Z a / inject_Z n == 1)%Q ↔ a = n.
Proof.
  intros Hn. split.
  - intros H.
    assert (inject_Z a == inject_Z n)%Q as Heq.
    { rewrite <- (Qmult_1_l (inject_Z n)), <- H.
      unfold Qdiv. rewrite <- Qmult_assoc, (Qmult_comm (/ _)), Qmult_inv_r, Qmult_1_r;
        [done|]. unfold Qeq, inject_Z; cbn; lia. }
    unfold Qeq, inject_Z in Heq. cbn in Heq. lia.
  - intros ->. apply Qdiv_inject_Z_same. lia.
Qed.

(** X2: a value returned by [compute_global_accuracy] is 1 exactly when the
    prediction agrees with the label at every position of the label. *)
Theorem compute_global_accuracy_one_iff pred label q :
  compute_global_accuracy pred label = Ok q →
  (q == 1)%Q ↔ take (length label) pred = label.
Proof.
  intros Hq.
  destruct (decide (length label ≤ length pred)%nat) as [Hlen|Hlen];
    [|by rewrite compute_global_accuracy_short in Hq by lia].
  destruct label as [|x label]; [by rewrite compute_global_accuracy_empty in Hq|].
  rewrite compute_global_accuracy_value in Hq by done. injection Hq as <-.
  rewrite Qdiv_inject_Z_one by (cbn [length]; lia).
  by apply agreements_full.
Qed.

Lemma compute_global_accuracy_one_iff_witness :
  ∃ q, compute_global_accuracy [0; 1; 5] [0; 1] = Ok q ∧
       ((q == 1)%Q ↔ take (length [0; 1]) [0; 1; 5] = [0; 1]).
Proof.
  eexists. split; [vm_compute; reflexivity|].
  apply (compute_global_accuracy_one_iff [0; 1; 5] [0; 1]). vm_compute. reflexivity.
Defined.

(** ** Dice *)

Lemma np_sum_and_le_r a b : np_sum (zip_with andb a b) ≤ np_sum b.
Proof. rewrite (zip_with_comm andb andb_comm). apply np_sum_and_le. Qed.

Lemma dice_value_range i sa sb :
  0 ≤ i → i ≤ sa → i ≤ sb → (0 < dice_value i sa sb <= 1)%Q.
Proof.
  intros Hi Ha Hb. unfold dice_value.
  pose proof (dice_denominator_pos sa sb ltac:(lia) ltac:(lia)) as Hpos.
  split.
  - apply Qlt_shift_div_l; [done|]. rewrite Qmult_0_l.
    unfold Qlt, Qplus, Qmult, inject_Z, smooth. cbn. lia.
  - apply Qle_shift_div_r; [done|]. rewrite Qmult_1_l.
    unfold Qle, Qplus, Qmult, inject_Z, smooth. cbn. lia.
Qed.

Lemma dice_value_one i sa sb :
  0 ≤ sa → 0 ≤ sb → (dice_value i sa sb == 1)%Q ↔ 2 * i = sa + sb.
Proof.
  intros Ha Hb. unfold dice_value.
  pose proof (dice_denominator_pos sa sb Ha Hb) as Hpos.
  assert (¬ (inject_Z (sa + sb) + smooth == 0)%Q) as Hnz.
  { intros H. rewrite H in Hpos. by apply Qlt_irrefl in Hpos. }
  split.
  - intros H.
    assert (2 * inject_Z i + smooth == inject_Z (sa + sb) + smooth)%Q as Heq.
    { rewrite <- (Qmult_1_l (inject_Z (sa + sb) + smooth)), <- H.
      unfold Qdiv. by rewrite <- Qmult_assoc, (Qmult_comm (/ _)), Qmult_inv_r, Qmult_1_r. }
    unfold Qeq, Qplus, Qmult, inject_Z, smooth in Heq. cbn in Heq. lia.
  - intros H.
    assert (2 * inject_Z i + smooth == inject_Z (sa + sb) + smooth)%Q as ->.
    { unfold Qeq, Qplus, Qmult, inject_Z, smooth. cbn. lia. }
    by apply Qmult_inv_r.
Qed.

Lemma np_sum_and_full a : ∀ b,
  length a = length b →
  np_sum (zip_with andb a b) = np_sum a → np_sum (zip_with andb a b) = np_sum b →
  a = b.
Proof.
  induction a as [|x a IH]; intros [|y b] Hlen; try done.
  injection Hlen as Hlen. cbn [zip_with]. rewrite !np_sum_cons.
  pose proof (np_sum_and_le a b) as Hl. pose proof (np_sum_and_le_r a b) as Hr.
  destruct x, y; cbn [andb Z.b2z]; intros H1 H2; try lia; f_equal; apply IH; lia.
Qed.

(** X3: on masks of the same length [dice_coef] returns a value that is
    positive and at most 1. *)
Theorem dice_coef_range (y_pred y_true : list bool) :
  length y_pred = length y_true →
  ∃ q, dice_coef y_pred y_true = Ok q ∧ (0 < q <= 1)%Q.
Proof.
  intros Hlen. eexists. split; [by apply dice_coef_same_length|].
  apply dice_value_range;
    [apply np_sum_nonneg|apply np_sum_and_le|apply np_sum_and_le_r].
Qed.

Lemma dice_coef_range_witness :
  ∃ q, dice_coef [true; false] [true; true] = Ok q ∧ (0 < q <= 1)%Q.
Proof. apply (dice_coef_range [true; false] [true; true]). reflexivity. Defined.

(** X4: on masks of the same length the Dice coefficient is 1 exactly when
    the two masks are equal. *)
Theorem dice_coef_one_iff (y_pred y_true : list bool) q :
  length y_pred = length y_true →
  dice_coef y_pred y_true = Ok q →
  (q == 1)%Q ↔ y_pred = y_true.
Proof.
  intros Hlen. rewrite dice_coef_same_length by done. intros [= <-].
  rewrite dice_value_one by apply np_sum_nonneg.
  pose proof (np_sum_and_le y_true y_pred) as Hl.
  pose proof (np_sum_and_le_r y_true y_pred) as Hr.
  split.
  - intros H. symmetry. apply np_sum_and_full; [done|lia|lia].
  - intros ->. rewrite np_sum_and_self. lia.
Qed.

Lemma dice_coef_one_iff_witness :
  ∃ q, dice_coef [true; false] [true; true] = Ok q ∧
       ((q == 1)%Q ↔ [true; false] = [true; true]).
Proof.
  eexists. split; [vm_compute; reflexivity|].
  apply (dice_coef_one_iff [true; false] [true; true]);
    [reflexivity|vm_compute; reflexivity].
Defined.

(** X5: for masks of the same length that share no pixel and are not both
    empty, the Dice coefficient is the smoothing term over at least one pixel
    plus the smoothing term, hence at most 1/10001. *)
Theorem dice_coef_disjoint (y_pred y_true : list bool) :
  length y_pred = length y_true →
  np_sum (zip_with andb y_true y_pred) = 0 →
  0 < np_sum y_true + np_sum y_pred →
  ∃ q, dice_coef y_pred y_true = Ok q ∧ (q <= 1 # 10001)%Q.
Proof.
  intros Hlen Hdisj Hsome. eexists. split; [by apply dice_coef_same_length|].
  rewrite Hdisj. unfold dice_value.
  pose proof (np_sum_nonneg y_true). pose proof (np_sum_nonneg y_pred).
  apply Qle_shift_div_r; [by apply dice_denominator_pos|].
  unfold Qle, Qplus, Qmult, inject_Z, smooth. cbn. lia.
Qed.

Lemma dice_coef_disjoint_witness :
  ∃ q, dice_coef [true; false] [false; true] = Ok q ∧ (q <= 1 # 10001)%Q.
Proof.
  apply (dice_coef_disjoint [true; false] [false; true]); reflexivity.
Defined.

(** ** IoU *)

Lemma np_sum_or_and a : ∀ b,
  length a = length b →
  np_sum (zip_with orb a b) + np_sum (zip_with andb a b) = np_sum a + np_sum b.
Proof.
  induction a as [|x a IH]; intros [|y b] Hlen; try done.
  injection Hlen as Hlen. cbn [zip_with]. rewrite !np_sum_cons.
  specialize (IH b Hlen). destruct x, y; cbn [andb orb Z.b2z]; lia.
Qed.

Lemma class_intersection_le_union pred label c :
  length pred = length label →
  0 ≤ class_intersection pred label c ≤ class_union pred label c.
Proof.
  intros Hlen. unfold class_intersection, class_union.
  split; [apply np_sum_nonneg|].
  etrans; [apply np_sum_and_le|]. apply np_sum_or_ge.
  by rewrite !length_np_eq.
Qed.

(** X6: on maps of the same length [compute_iou] returns one entry per
    distinct label of the ground truth, and every entry is a finite number
    between 0 and 1 (never [nan] or [inf]). *)
Theorem compute_iou_range (pred label : list Z) :
  length pred = length label →
  ∃ ious, compute_iou pred label = Ok ious ∧
    length ious = length (np_unique label) ∧
    ∀ i v, ious !! i = Some v → ∃ q, v = Fin q ∧ (0 <= q <= 1)%Q.
Proof.
  intros Hlen. eexists. split; [by apply compute_iou_same_length|].
  split; [by rewrite length_fmap|].
  intros i v Hv. rewrite list_lookup_fmap in Hv.
  destruct (np_unique label !! i) as [c|] eqn:Hc; [|done].
  injection Hv as <-.
  assert (c ∈ label) as Hin
    by (apply elem_of_np_unique, list_elem_of_lookup; by exists i).
  eexists. split; [by apply class_iou_finite|].
  apply Qdiv_inject_Z_range; [by apply class_intersection_le_union|].
  by apply class_union_pos.
Qed.

Lemma compute_iou_range_witness :
  ∃ ious, compute_iou sample_pred sample_label = Ok ious ∧
    length ious = length (np_unique sample_label) ∧
    ∀ i v, ious !! i = Some v → ∃ q, v = Fin q ∧ (0 <= q <= 1)%Q.
Proof. apply (compute_iou_range sample_pred sample_label). reflexivity. Defined.

(** X7: for every label of the ground truth, the IoU entry of
    [compute_iou] is at most the Dice coefficient that [dice_coef] gives for
    the masks of that label. *)
Theorem iou_le_dice (pred label : list Z) i c :
  length pred = length label →
  np_unique label !! i = Some c →
  ∃ ious q d, compute_iou pred label = Ok ious ∧
    ious !! i = Some (Fin q) ∧
    dice_coef (np_eq label c) (np_eq pred c) = Ok d ∧
    (q <= d)%Q.
Proof.
  intros Hlen Hc.
  assert (c ∈ label) as Hin
    by (apply elem_of_np_unique, list_elem_of_lookup; by exists i).
  do 3 eexists. split; [by apply compute_iou_same_length|].
  split.
  { rewrite list_lookup_fmap, Hc. cbn. by rewrite class_iou_finite. }
  split; [by apply dice_coef_class|].
  pose proof (class_union_pos pred label c Hlen Hin) as HU.
  unfold class_dice, dice_value, true_positives, class_pixels.
  unfold class_intersection, class_union in *.
  rewrite (zip_with_comm andb andb_comm (np_eq pred c)).
  pose proof (np_sum_or_and (np_eq label c) (np_eq pred c)) as Hie.
  rewrite !length_np_eq in Hie. specialize (Hie (eq_sym Hlen)).
  pose proof (np_sum_and_le (np_eq label c) (np_eq pred c)) as Hl.
  pose proof (np_sum_and_le_r (np_eq label c) (np_eq pred c)) as Hr.
  pose proof (np_sum_nonneg (zip_with andb (np_eq label c) (np_eq pred c))) as H0.
  set (I := np_sum (zip_with andb (np_eq label c) (np_eq pred c))) in *.
  set (U := np_sum (zip_with orb (np_eq label c) (np_eq pred c))) in *.
  set (A := np_sum (np_eq pred c)) in *. set (B := np_sum (np_eq label c)) in *.
  apply Qle_shift_div_r; [unfold Qlt, inject_Z; cbn; lia|].
  unfold Qdiv. rewrite <- Qmult_assoc, (Qmult_comm (/ _)), Qmult_assoc.
  apply Qle_shift_div_l; [apply dice_denominator_pos; lia|].
  unfold Qle, Qplus, Qmult, inject_Z, smooth. cbn. nia.
Qed.

Lemma iou_le_dice_witness :
  ∃ ious q d, compute_iou sample_pred sample_label = Ok ious ∧
    ious !! 1%nat = Some (Fin q) ∧
    dice_coef (np_eq sample_label 1) (np_eq sample_pred 1) = Ok d ∧
    (q <= d)%Q.
Proof.
  apply (iou_le_dice sample_pred sample_label 1 1);
    [reflexivity|vm_compute; reflexivity].
Defined.

(** ** Class accuracies *)

Lemma true_positives_le_label (pred label : list Z) c :
  true_positives pred label c ≤ class_pixels label c.
Proof. apply np_sum_and_le_r. Qed.

Lemma class_accuracy_range pred label c : (0 <= class_accuracy pred label c <= 1)%Q.
Proof.
  unfold class_accuracy.
  destruct (Z.eqb_spec (class_pixels label c) 0) as [Hz|Hnz]; [done|].
  pose proof (true_positives_nonneg pred label c).
  pose proof (true_positives_le_label pred label c).
  pose proof (np_sum_nonneg (np_eq label c)). unfold class_pixels in *.
  apply Qdiv_inject_Z_range; lia.
Qed.

(** X8: on maps of the same length whose ground truth holds class indices
    only, every per-class accuracy lies between 0 and 1. *)
Theorem compute_class_accuracies_range (pred label : list Z) (num_classes : nat) :
  length pred = length label →
  Forall (λ v, 0 ≤ v < Z.of_nat num_classes) label →
  ∃ accs, compute_class_accuracies pred label num_classes = Ok accs ∧
    Forall (λ q, 0 <= q <= 1)%Q accs.
Proof.
  intros Hlen Hrange. eexists.
  split; [by apply compute_class_accuracies_value|].
  apply Forall_fmap, Forall_forall. intros c _. apply class_accuracy_range.
Qed.

Lemma compute_class_accuracies_range_witness :
  ∃ accs, compute_class_accuracies sample_pred sample_label 2 = Ok accs ∧
    Forall (λ q, 0 <= q <= 1)%Q accs.
Proof.
  apply (compute_class_accuracies_range sample_pred sample_label 2);
    [reflexivity|repeat constructor; lia].
Defined.

Lemma agreeing_indexable_cons n p pred l label :
  agreeing_indexable n (p :: pred) (l :: label)
  ↔ (p = l → - Z.of_nat n ≤ l < Z.of_nat n) ∧ agreeing_indexable n pred label.
Proof.
  unfold agreeing_indexable. split.
  - intros H. split.
    + intros ->. by apply (H 0%nat).
    + intros i v Hp Hl. by apply (H (S i)).
  - intros [H0 H] [|i] v Hp Hl; cbn in *; [|by eapply H].
    simplify_eq. by apply H0.
Qed.

Lemma py_index_valid n z :
  - Z.of_nat n ≤ z < Z.of_nat n → ∃ k, py_index n z = Ok k ∧ (k < n)%nat.
Proof.
  intros Hz. unfold py_index.
  destruct (decide (0 ≤ z < Z.of_nat n)); [eexists; split; [done|lia]|].
  rewrite decide_True by lia. eexists; split; [done|lia].
Qed.

Lemma py_index_invalid n z :
  ¬ (- Z.of_nat n ≤ z < Z.of_nat n) → py_index n z = Raise IndexError.
Proof.
  intros Hz. unfold py_index. by rewrite !decide_False by lia.
Qed.

Lemma scan2_class_count_outcome n label : ∀ pred (count : list Q),
  length count = n →
  (∃ count', scan2 class_count_step pred label count = Ok count' ∧
             length count' = n ∧
             (length label ≤ length pred)%nat ∧ agreeing_indexable n pred label) ∨
  (scan2 class_count_step pred label count = Raise IndexError ∧
   ¬ ((length label ≤ length pred)%nat ∧ agreeing_indexable n pred label)).
Proof.
  induction label as [|l label IH]; intros pred count Hcount.
  { left. exists count. split; [done|]. split; [done|]. split; [cbn; lia|].
    by intros i v _ ?. }
  destruct pred as [|p pred].
  { right. split; [done|]. cbn. intros []. lia. }
  cbn [scan2 length].
  destruct (decide (p = l)) as [->|Hne].
  - destruct (decide (- Z.of_nat n ≤ l < Z.of_nat n)) as [Hl|Hl].
    + destruct (py_index_valid n l Hl) as (k & Hk & Hkn).
      destruct (lookup_lt_is_Some_2 count k) as [c Hc]; [lia|].
      assert (class_count_step l l count = Ok (<[k := (c + 1)%Q]> count)) as ->.
      { unfold class_count_step. rewrite Z.eqb_refl, Hcount, Hk, bind_Ok.
        by rewrite (getitem_Ok _ _ c). }
      rewrite bind_Ok.
      destruct (IH pred (<[k := (c + 1)%Q]> count)) as
        [(count' & -> & Hlen' & Hle & Hag)|[-> Hno]]; [by rewrite length_insert| |].
      * left. eexists. split; [done|]. split; [done|]. split; [lia|].
        by apply agreeing_indexable_cons.
      * right. split; [done|]. intros [? [_ ?]%agreeing_indexable_cons].
        apply Hno. split; [lia|done].
    + assert (class_count_step l l count = Raise IndexError) as ->.
      { unfold class_count_step. by rewrite Z.eqb_refl, Hcount, py_index_invalid. }
      right. split; [done|]. intros [_ [H _]%agreeing_indexable_cons].
      by destruct Hl; apply H.
  - rewrite class_count_step_miss, bind_Ok by done.
    destruct (IH pred count Hcount) as
      [(count' & -> & Hlen' & Hle & Hag)|[-> Hno]].
    + left. eexists. split; [done|]. split; [done|]. split; [lia|].
      by apply agreeing_indexable_cons.
    + right. split; [done|]. intros [? [_ ?]%agreeing_indexable_cons].
      apply Hno. split; [lia|done].
Qed.

(** X9: [compute_class_accuracies] returns exactly when the prediction has
    an entry for every position of the label and every value on which the
    two agree is a valid index into the counter list (at least
    [-num_classes], below [num_classes]); in every other case it ends in an
    index error, and in no other exception. *)
Theorem compute_class_accuracies_defined (pred label : list Z) (num_classes : nat) :
  (is_Ok (compute_class_accuracies pred label num_classes)
   ↔ (length label ≤ length pred)%nat ∧ agreeing_indexable num_classes pred label) ∧
  (∀ e, compute_class_accuracies pred label num_classes = Raise e → e = IndexError).
Proof.
  unfold compute_class_accuracies.
  rewrite (for_range_scan2 class_count_step pred label).
  destruct (scan2_class_count_outcome num_classes label pred
              (replicate num_classes 0%Q)) as
    [(count & -> & Hcount & HC)|[-> HC]]; [apply length_replicate| |].
  - rewrite bind_Ok.
    unfold for_range. rewrite length_fmap, length_seq.
    rewrite (foldM_append _
      (λ c, if class_pixels label (Z.of_nat c) =? 0 then 0%Q
            else (default 0%Q (count !! c) / inject_Z (class_pixels label (Z.of_nat c)))%Q)).
    { split; [|done]. split; [done|by eexists]. }
    intros c acc Hc. apply elem_of_seq in Hc.
    rewrite (getitem_Ok _ _ (class_pixels label (Z.of_nat c))), bind_Ok
      by (by rewrite list_lookup_fmap, lookup_seq_lt by lia).
    destruct (class_pixels label (Z.of_nat c) =? 0); [done|].
    destruct (lookup_lt_is_Some_2 count c) as [x Hx]; [lia|].
    by rewrite (getitem_Ok _ _ x), Hx.
  - rewrite bind_Raise. split; [|congruence].
    split; [by intros [? ?]|done].
Qed.

(** ** Maps that never agree *)

Lemma class_intersection_le_agreements label : ∀ pred c,
  class_intersection pred label c ≤ agreements pred label.
Proof.
  unfold class_intersection, agreements.
  induction label as [|l label IH]; intros [|p pred] c; try (cbn; done).
  rewrite !np_eq_cons. cbn [zip_with]. rewrite !np_sum_cons.
  specialize (IH pred c).
  destruct (Z.eqb_spec l c), (Z.eqb_spec p c), (Z.eqb_spec p l);
    cbn [andb Z.b2z]; lia.
Qed.

(** X11: when prediction and ground truth, of the same length, agree at no
    position, the global accuracy is 0 and every IoU entry is 0. *)
Theorem no_agreement_scores_zero (pred label : list Z) :
  length pred = length label → label ≠ [] →
  agreements pred label = 0 →
  ∃ acc ious,
    compute_global_accuracy pred label = Ok acc ∧ (acc == 0)%Q ∧
    compute_iou pred label = Ok ious ∧
    Forall (λ v, ∃ q, v = Fin q ∧ (q == 0)%Q) ious.
Proof.
  intros Hlen Hne Hzero. do 2 eexists.
  split. { apply compute_global_accuracy_value; [exact Hne|lia]. }
  split. { rewrite Hzero. unfold Qdiv. apply Qmult_0_l. }
  split; [by apply compute_iou_same_length|].
  apply Forall_fmap, Forall_forall. intros c Hc.
  rewrite elem_of_np_unique in Hc. unfold compose. eexists. split; [by apply class_iou_finite|].
  pose proof (class_intersection_le_agreements label pred c).
  pose proof (class_intersection_le_union pred label c Hlen).
  replace (class_intersection pred label c) with 0 by lia.
  unfold Qdiv. apply Qmult_0_l.
Qed.

Lemma no_agreement_scores_zero_witness :
  ∃ acc ious,
    compute_global_accuracy [1; 0; 0] [0; 1; 1] = Ok acc ∧ (acc == 0)%Q ∧
    compute_iou [1; 0; 0] [0; 1; 1] = Ok ious ∧
    Forall (λ v, ∃ q, v = Fin q ∧ (q == 0)%Q) ious.
Proof.
  apply (no_agreement_scores_zero [1; 0; 0] [0; 1; 1]);
    [reflexivity|discriminate|reflexivity].
Defined.

(** ** evaluate_segmentation *)

Lemma foldM_app {A T} (body : A → T → result T) xs ys s :
  foldM body (xs ++ ys) s = foldM body xs s ≫= foldM body ys.
Proof.
  revert s. induction xs as [|x xs IH]; intros s; cbn [app foldM]; [done|].
  destruct (body x s) as [s'|e]; [|done]. rewrite !bind_Ok. apply IH.
Qed.

Lemma foldM_is_Ok {A T} (body : A → T → result T) xs :
  (∀ x s, x ∈ xs → is_Ok (body x s)) → ∀ s, is_Ok (foldM body xs s).
Proof.
  induction xs as [|x xs IH]; intros Hbody s; cbn [foldM]; [by eexists|].
  destruct (Hbody x s) as [s' ->]; [constructor|]. rewrite bind_Ok.
  apply IH. intros y t Hy. apply Hbody. by constructor.
Qed.

Lemma label_key_inj name i j : label_key name i = label_key name j → i = j.
Proof. unfold label_key. intros H%(inj (String.app name)). by apply (inj pretty). Qed.

Lemma getitem_Ok_inv {A} (l : list A) i x : getitem l i = Ok x → l !! i = Some x.
Proof. unfold getitem. destruct (l !! i); by intros [= ->]. Qed.

Lemma eval_step_Ok prec rec iou dice i d d' :
  eval_step prec rec iou dice i d = Ok d' →
  ∃ p r u dc, prec !! i = Some p ∧ rec !! i = Some r ∧ iou !! i = Some u ∧
    dice !! i = Some dc ∧
    d' = <[label_key "dice_label_" i := Fin dc]>
           (<[label_key "iou_label_" i := u]>
              (<[label_key "recall_label_" i := Fin r]>
                 (<[label_key "accuracy_label_" i := Fin p]> d))).
Proof.
  unfold eval_step. intros H.
  destruct (getitem prec i) as [p|] eqn:Hp; [rewrite bind_Ok in H|done].
  destruct (getitem rec i) as [r|] eqn:Hr; [rewrite bind_Ok in H|done].
  destruct (getitem iou i) as [u|] eqn:Hu; [rewrite bind_Ok in H|done].
  destruct (getitem dice i) as [dc|] eqn:Hd; [rewrite bind_Ok in H|done].
  injection H as <-. exists p, r, u, dc.
  by repeat split; try apply getitem_Ok_inv.
Qed.

Ltac key_ne :=
  let H := fresh in
  intros H; (apply label_key_inj in H; lia) || (by cbv in H).

Lemma eval_loop_filled prec rec iou dice d0 n : ∀ d,
  foldM (eval_step prec rec iou dice) (seq 0 n) d0 = Ok d →
  eval_filled prec rec iou dice n d0 d.
Proof.
  induction n as [|n IH]; intros d Hd.
  - injection Hd as <-. split; [done|]. intros; lia.
  - rewrite seq_S, foldM_app in Hd. cbn [Nat.add] in Hd.
    destruct (foldM _ (seq 0 n) d0) as [d1|] eqn:H1; [rewrite bind_Ok in Hd|done].
    cbn [foldM] in Hd.
    destruct (eval_step prec rec iou dice n d1) as [d2|] eqn:H2; [|done].
    rewrite bind_Ok in Hd. injection Hd as <-.
    destruct (IH d1 eq_refl) as [Hacc Hfill].
    apply eval_step_Ok in H2 as (p & r & u & dc & Hp & Hr & Hu & Hdc & ->).
    split.
    + rewrite !lookup_insert_ne by (by cbv). done.
    + intros i Hi. destruct (decide (i = n)) as [->|Hne].
      * exists p, r, u, dc.
        repeat split; try done;
          repeat (first [rewrite lookup_insert_eq; done
                        |rewrite lookup_insert_ne by (by cbv)]).
      * destruct (Hfill i ltac:(lia)) as (p' & r' & u' & dc' & ? & ? & ? & ? & ? & ? & ? & ?).
        exists p', r', u', dc'.
        repeat split; try done; rewrite !lookup_insert_ne by key_ne; done.
Qed.

(** X12: a dictionary returned by [evaluate_segmentation] holds the global
    accuracy under [accuracy] and, for every class index below
    [MASK_LABELS], the entries of that index of the precision, recall, IoU
    and Dice vectors under [accuracy_label_i], [recall_label_i],
    [iou_label_i] and [dice_label_i]. *)
Theorem evaluate_segmentation_content (MASK_LABELS : nat) (pred label : list Z) d :
  evaluate_segmentation MASK_LABELS pred label = Ok d →
  ∃ acc precs recs ious dices,
    compute_global_accuracy pred label = Ok acc ∧
    precision_score pred label = Ok precs ∧
    recall_score pred label = Ok recs ∧
    compute_iou pred label = Ok ious ∧
    dice_coef_multilabel pred label = Ok dices ∧
    d !! "accuracy" = Some (Fin acc) ∧
    ∀ i, (i < MASK_LABELS)%nat →
      ∃ p r u dc,
        precs !! i = Some p ∧ recs !! i = Some r ∧
        ious !! i = Some u ∧ dices !! i = Some dc ∧
        d !! label_key "accuracy_label_" i = Some (Fin p) ∧
        d !! label_key "recall_label_" i = Some (Fin r) ∧
        d !! label_key "iou_label_" i = Some u ∧
        d !! label_key "dice_label_" i = Some (Fin dc).
Proof.
  unfold evaluate_segmentation. intros H.
  destruct (compute_global_accuracy pred label) as [acc|]; [rewrite bind_Ok in H|done].
  destruct (precision_score pred label) as [precs|]; [rewrite bind_Ok in H|done].
  destruct (recall_score pred label) as [recs|]; [rewrite bind_Ok in H|done].
  destruct (compute_iou pred label) as [ious|]; [rewrite bind_Ok in H|done].
  destruct (dice_coef_multilabel pred label) as [dices|]; [rewrite bind_Ok in H|done].
  exists acc, precs, recs, ious, dices. do 5 (split; [done|]).
  apply (eval_loop_filled precs recs ious dices) in H as [Hacc Hfill].
  split; [|done]. rewrite Hacc. apply lookup_singleton_eq.
Qed.

Lemma evaluate_segmentation_content_witness :
  ∃ d, evaluate_segmentation 2 sample_pred sample_label = Ok d ∧
  ∃ acc precs recs ious dices,
    compute_global_accuracy sample_pred sample_label = Ok acc ∧
    precision_score sample_pred sample_label = Ok precs ∧
    recall_score sample_pred sample_label = Ok recs ∧
    compute_iou sample_pred sample_label = Ok ious ∧
    dice_coef_multilabel sample_pred sample_label = Ok dices ∧
    d !! "accuracy" = Some (Fin acc) ∧
    ∀ i, (i < 2)%nat →
      ∃ p r u dc,
        precs !! i = Some p ∧ recs !! i = Some r ∧
        ious !! i = Some u ∧ dices !! i = Some dc ∧
        d !! label_key "accuracy_label_" i = Some (Fin p) ∧
        d !! label_key "recall_label_" i = Some (Fin r) ∧
        d !! label_key "iou_label_" i = Some u ∧
        d !! label_key "dice_label_" i = Some (Fin dc).
Proof.
  eexists. split; [vm_compute; reflexivity|].
  apply (evaluate_segmentation_content 2 sample_pred sample_label).
  vm_compute. reflexivity.
Defined.

Lemma getitem_lt {A} (l : list A) i : (i < length l)%nat → ∃ x, getitem l i = Ok x.
Proof.
  intros Hi. destruct (lookup_lt_is_Some_2 l i Hi) as [x Hx].
  exists x. by apply getitem_Ok.
Qed.

Lemma NoDup_np_unique a : NoDup (np_unique a).
Proof.
  unfold np_unique. rewrite merge_sort_Permutation. apply NoDup_remove_dups.
Qed.

Lemma length_np_unique_app pred label :
  (length (np_unique label) ≤ length (np_unique (pred ++ label)))%nat.
Proof.
  apply submseteq_length, NoDup_submseteq; [apply NoDup_np_unique|].
  intros x Hx. apply elem_of_np_unique, elem_of_app. right.
  by apply elem_of_np_unique.
Qed.

Lemma np_unique_ext a b : (∀ x, x ∈ a ↔ x ∈ b) → np_unique a = np_unique b.
Proof.
  intros Hab. apply (Sorted_unique Z.le).
  - apply (Sorted_merge_sort Z.le).
  - apply (Sorted_merge_sort Z.le).
  - apply NoDup_Permutation; [apply NoDup_np_unique..|].
    intros x. rewrite !elem_of_np_unique. apply Hab.
Qed.

Lemma evaluate_segmentation_is_Ok MASK_LABELS pred label :
  length pred = length label → label ≠ [] →
  (MASK_LABELS ≤ length (np_unique label))%nat →
  is_Ok (evaluate_segmentation MASK_LABELS pred label).
Proof.
  intros Hlen Hne Hall. unfold evaluate_segmentation.
  rewrite compute_global_accuracy_value, bind_Ok by (done || lia).
  rewrite precision_score_same_length, bind_Ok by done.
  rewrite recall_score_same_length, bind_Ok by done.
  rewrite compute_iou_same_length, bind_Ok by done.
  rewrite dice_coef_multilabel_same_length, bind_Ok by done.
  apply foldM_is_Ok. intros i s Hi%elem_of_seq.
  pose proof (length_np_unique_app pred label) as Hle.
  repeat match goal with
         | |- is_Ok (getitem ?l i ≫= _) =>
             destruct (getitem_lt l i) as [? ->];
             [rewrite ?length_fmap, ?length_seq; lia|rewrite bind_Ok]
         end.
  by eexists.
Qed.

(** X13: on non-empty maps of the same length [evaluate_segmentation]
    returns exactly when the ground truth holds at least [MASK_LABELS]
    distinct labels; otherwise it ends in an index error, and in no other
    exception. *)
Theorem evaluate_segmentation_defined (MASK_LABELS : nat) (pred label : list Z) :
  length pred = length label → label ≠ [] →
  (is_Ok (evaluate_segmentation MASK_LABELS pred label)
   ↔ (MASK_LABELS ≤ length (np_unique label))%nat) ∧
  (∀ e, evaluate_segmentation MASK_LABELS pred label = Raise e → e = IndexError).
Proof.
  intros Hlen Hne.
  destruct (decide (MASK_LABELS ≤ length (np_unique label))%nat) as [Hall|Habsent].
  - destruct (evaluate_segmentation_is_Ok MASK_LABELS pred label) as [d Hd]; [done..|].
    rewrite Hd. split; [|done]. split; [done|]. by eexists.
  - rewrite evaluate_segmentation_absent_class by (done || lia).
    split; [|congruence]. split; [by intros [? ?]|lia].
Qed.

Lemma evaluate_segmentation_defined_witness :
  (is_Ok (evaluate_segmentation 2 sample_pred sample_label)
   ↔ (2 ≤ length (np_unique sample_label))%nat) ∧
  (∀ e, evaluate_segmentation 2 sample_pred sample_label = Raise e → e = IndexError).
Proof.
  apply (evaluate_segmentation_defined 2 sample_pred sample_label);
    [reflexivity|discriminate].
Defined.

(** X14: when the ground truth holds exactly the classes below
    [MASK_LABELS] and the prediction only such classes, the value that
    [evaluate_segmentation] stores under [accuracy_label_c] is entry [c] of
    [compute_class_accuracies] (correct pixels over ground-truth pixels of
    the class), and the value under [recall_label_c] is the number of
    correct pixels over the pixels predicted as [c]. *)
Theorem accuracy_label_is_class_accuracy (MASK_LABELS : nat) (pred label : list Z) :
  length pred = length label → label ≠ [] →
  np_unique label = Z.of_nat <$> seq 0 MASK_LABELS →
  Forall (λ v, 0 ≤ v < Z.of_nat MASK_LABELS) pred →
  ∃ d accs,
    evaluate_segmentation MASK_LABELS pred label = Ok d ∧
    compute_class_accuracies pred label MASK_LABELS = Ok accs ∧
    ∀ c, (c < MASK_LABELS)%nat →
      ∃ a, accs !! c = Some a ∧
        d !! label_key "accuracy_label_" c = Some (Fin a) ∧
        d !! label_key "recall_label_" c
        = Some (Fin (predicted_class_fraction pred label (Z.of_nat c))).
Proof.
  intros Hlen Hne Hall Hpred.
  assert (∀ v, v ∈ label ↔ ∃ c, (c < MASK_LABELS)%nat ∧ v = Z.of_nat c) as Hlabel.
  { intros v. rewrite <- elem_of_np_unique, Hall, list_elem_of_fmap.
    split; intros (c & H1 & H2).
    - exists c. apply elem_of_seq in H2. split; [lia|done].
    - exists c. split; [done|]. apply elem_of_seq. lia. }
  assert (Forall (λ v, 0 ≤ v < Z.of_nat MASK_LABELS) label) as Hrange.
  { apply Forall_forall. intros v (c & Hc & ->)%Hlabel. lia. }
  assert (np_unique (pred ++ label) = Z.of_nat <$> seq 0 MASK_LABELS) as Hboth.
  { rewrite <- Hall. apply np_unique_ext. intros v. rewrite elem_of_app.
    split; [|by right]. intros [Hv|Hv]; [|done].
    apply Hlabel. rewrite Forall_forall in Hpred. specialize (Hpred v Hv).
    exists (Z.to_nat v). split; lia. }
  destruct (evaluate_segmentation_is_Ok MASK_LABELS pred label) as [d Hd];
    [done|done|by rewrite Hall, length_fmap, length_seq|].
  exists d. eexists. split; [done|].
  split; [by apply compute_class_accuracies_value|].
  intros c Hc. eexists.
  split; [by rewrite list_lookup_fmap, lookup_seq_lt|]. cbn [Nat.add].
  unfold evaluate_segmentation in Hd.
  rewrite compute_global_accuracy_value, bind_Ok in Hd by (done || lia).
  rewrite precision_score_same_length, bind_Ok in Hd by done.
  rewrite recall_score_same_length, bind_Ok in Hd by done.
  rewrite compute_iou_same_length, bind_Ok in Hd by done.
  rewrite dice_coef_multilabel_same_length, bind_Ok in Hd by done.
  apply eval_loop_filled in Hd as [_ Hfill].
  destruct (Hfill c Hc) as (p & r & u & dc & Hp & Hr & _ & _ & -> & -> & _ & _).
  rewrite Hboth, list_lookup_fmap, list_lookup_fmap, lookup_seq_lt in Hp, Hr by done.
  cbn in Hp, Hr. injection Hp as <-. injection Hr as <-. done.
Qed.

Lemma accuracy_label_is_class_accuracy_witness :
  ∃ d accs,
    evaluate_segmentation 2 sample_pred sample_label = Ok d ∧
    compute_class_accuracies sample_pred sample_label 2 = Ok accs ∧
    ∀ c, (c < 2)%nat →
      ∃ a, accs !! c = Some a ∧
        d !! label_key "accuracy_label_" c = Some (Fin a) ∧
        d !! label_key "recall_label_" c
        = Some (Fin (predicted_class_fraction sample_pred sample_label (Z.of_nat c))).
Proof.
  apply (accuracy_label_is_class_accuracy 2 sample_pred sample_label);
    [reflexivity|discriminate|vm_compute; reflexivity|repeat constructor; lia].
Defined.

(** ** load_checkpoint, further *)

Ltac load_unfold :=
  unfold load_checkpoint, try_except_KeyError, mbind, load_mbind, load_bind,
    mret, load_mret, load_ret, load_lift, call_load, dict_getitem.

(** X15: on a bundle that has [state_dict] and a state for each of the
    optimizer and the scheduler that was passed, with every
    [load_state_dict] succeeding, [load_checkpoint] returns [None]; the model
    is loaded once, from [state_dict], before the others, and the fallback
    is not tried. *)
Theorem load_checkpoint_bundle checkpoint model optimizer scheduler sd tr :
  checkpoint !! "state_dict" = Some sd →
  load_state_dict model sd = Ok () →
  match optimizer with
  | Some opt => ∃ osd, checkpoint !! "optimizer" = Some osd ∧ load_state_dict opt osd = Ok ()
  | None => True
  end →
  match scheduler with
  | Some sch => ∃ ssd, checkpoint !! "scheduler" = Some ssd ∧ load_state_dict sch ssd = Ok ()
  | None => True
  end →
  ∃ calls,
    load_checkpoint checkpoint model optimizer scheduler tr
    = (tr ++ (Model, sd) :: calls, Ok None) ∧
    Forall (λ call, call.1 ≠ Model) calls ∧
    (optimizer = None → scheduler = None → calls = []).
Proof.
  intros Hsd Hm Hopt Hsch. load_unfold. rewrite Hsd, Hm.
  destruct optimizer as [opt|], scheduler as [sch|].
  - destruct Hopt as (osd & -> & ->), Hsch as (ssd & -> & ->).
    exists [(Optimizer, osd); (Scheduler, ssd)]. cbn.
    rewrite <- !app_assoc. repeat split; [|done]. by repeat constructor.
  - destruct Hopt as (osd & -> & ->).
    exists [(Optimizer, osd)]. cbn.
    rewrite <- !app_assoc. repeat split; [|done]. by repeat constructor.
  - destruct Hsch as (ssd & -> & ->).
    exists [(Scheduler, ssd)]. cbn.
    rewrite <- !app_assoc. repeat split; [|done]. by repeat constructor.
  - exists []. by repeat split.
Qed.

Lemma load_checkpoint_bundle_witness :
  ∃ calls,
    load_checkpoint sample_bundle accepting (Some accepting) None []
    = ([] ++ (Model, PDict bare_state_dict) :: calls, Ok None) ∧
    Forall (λ call, call.1 ≠ Model) calls ∧
    (Some accepting = None → @None torch_object = None → calls = []).
Proof.
  apply (load_checkpoint_bundle sample_bundle accepting (Some accepting) None
           (PDict bare_state_dict) []).
  - vm_compute. reflexivity.
  - reflexivity.
  - eexists. split; [vm_compute; reflexivity|reflexivity].
  - exact I.
Defined.

(** X16: on a bundle that has [state_dict] but no [optimizer] entry, with
    an optimizer passed, the model is loaded from [state_dict] and then, in
    the fallback, a second time from the whole bundle; the outcome then
    hangs on the key [epoch]. *)
Theorem load_checkpoint_partial_bundle checkpoint model opt scheduler sd tr :
  checkpoint !! "state_dict" = Some sd →
  load_state_dict model sd = Ok () →
  checkpoint !! "optimizer" = None →
  load_state_dict model (PDict checkpoint) = Ok () →
  load_checkpoint checkpoint model (Some opt) scheduler tr
  = (tr ++ [(Model, sd); (Model, PDict checkpoint)],
     match checkpoint !! "epoch" with
     | Some epoch => Ok (Some epoch)
     | None => Raise (KeyError "epoch")
     end).
Proof.
  intros Hsd Hm Hopt Hm2. load_unfold. rewrite Hsd, Hm, Hopt, Hm2.
  rewrite <- app_assoc. by destruct (checkpoint !! "epoch").
Qed.

Lemma load_checkpoint_partial_bundle_witness :
  load_checkpoint model_only_bundle accepting (Some accepting) None []
  = ([] ++ [(Model, PDict bare_state_dict); (Model, PDict model_only_bundle)],
     match model_only_bundle !! "epoch" with
     | Some epoch => Ok (Some epoch)
     | None => Raise (KeyError "epoch")
     end).
Proof.
  apply (load_checkpoint_partial_bundle model_only_bundle accepting accepting None
           (PDict bare_state_dict) []);
    [vm_compute; reflexivity|reflexivity|vm_compute; reflexivity|reflexivity].
Defined.

(** X17: an exception other than [KeyError] raised while the model loads
    [state_dict] leaves [load_checkpoint] as it is; the fallback is not
    tried. *)
Theorem load_checkpoint_other_error checkpoint model optimizer scheduler sd e tr :
  checkpoint !! "state_dict" = Some sd →
  load_state_dict model sd = Raise e →
  (∀ key, e ≠ KeyError key) →
  load_checkpoint checkpoint model optimizer scheduler tr
  = (tr ++ [(Model, sd)], Raise e).
Proof.
  intros Hsd Hm He. load_unfold. rewrite Hsd, Hm.
  destruct e; try done. by destruct (He key).
Qed.

Lemma load_checkpoint_other_error_witness :
  load_checkpoint sample_bundle rejecting None None []
  = ([] ++ [(Model, PDict bare_state_dict)], Raise (RuntimeError "size mismatch")).
Proof.
  apply (load_checkpoint_other_error sample_bundle rejecting None None
           (PDict bare_state_dict) (RuntimeError "size mismatch") []);
    [vm_compute; reflexivity|reflexivity|intros key; discriminate].
Defined.

Ltac innermost_case :=
  match goal with
  | |- context [match ?x with _ => _ end] =>
      lazymatch x with
      | context [match _ with _ => _ end] => fail
      | _ => destruct x eqn:?
      end
  end.

Lemma load_checkpoint_result checkpoint model optimizer scheduler tr :
  let outcome := (load_checkpoint checkpoint model optimizer scheduler tr).2 in
  (outcome = Ok None ∧ is_Some (checkpoint !! "state_dict")) ∨
  (∃ v, outcome = Ok (Some v) ∧ checkpoint !! "epoch" = Some v) ∨
  (outcome = Raise (KeyError "epoch") ∧ checkpoint !! "epoch" = None) ∨
  (∃ e, outcome = Raise e ∧ ∀ key, e ≠ KeyError key).
Proof.
  load_unfold. cbn zeta.
  repeat (innermost_case; cbn [snd fst]); simplify_eq;
    first [ left; split; [done|by eexists]
          | right; left; by eexists
          | right; right; left; done
          | right; right; right; by eexists ].
Qed.

(** X18: whatever the checkpoint and the objects, a [KeyError] that leaves
    [load_checkpoint] is the one for the key [epoch], absent from the
    checkpoint; a returned value other than [None] is
    [checkpoint["epoch"]]; and when [None] is returned the checkpoint has
    the key [state_dict] or holds [None] under [epoch]. *)
Theorem load_checkpoint_outcomes checkpoint model optimizer scheduler tr :
  let outcome := (load_checkpoint checkpoint model optimizer scheduler tr).2 in
  (∀ key, outcome = Raise (KeyError key) →
          key = "epoch" ∧ checkpoint !! "epoch" = None) ∧
  (∀ r, outcome = Ok r → returned r ≠ PNone →
        checkpoint !! "epoch" = Some (returned r)) ∧
  (∀ r, outcome = Ok r → returned r = PNone →
        is_Some (checkpoint !! "state_dict") ∨ checkpoint !! "epoch" = Some PNone).
Proof.
  intros outcome.
  destruct (load_checkpoint_result checkpoint model optimizer scheduler tr)
    as [[H1 H2]|[(v & H1 & H2)|[[H1 H2]|(e & H1 & H2)]]];
    fold outcome in H1; rewrite H1.
  - split; [done|]. split.
    + by intros r [= <-] Hr.
    + intros r _ _. by left.
  - split; [done|]. split.
    + by intros r [= <-] _.
    + intros r [= <-] Hr. right. cbn in Hr. by rewrite <- Hr.
  - split; [|split; intros; by simplify_eq].
    by intros ? [= <-].
  - split; [|split; intros; by simplify_eq].
    intros key [= ->]. by destruct (H2 key).
Qed.

(** ** check_accuracy *)

Lemma evaluate_segmentation_Ok_length MASK_LABELS pred label d :
  evaluate_segmentation MASK_LABELS pred label = Ok d → length pred = length label.
Proof.
  unfold evaluate_segmentation. intros H.
  destruct (compute_global_accuracy pred label); [rewrite bind_Ok in H|done].
  destruct (decide (length pred = length label)) as [|Hne]; [done|].
  destruct (precision_score_mismatch pred label Hne) as [e He].
  by rewrite He in H.
Qed.

Lemma check_accuracy_batch_Ok MASK_LABELS pl y c p o st :
  check_accuracy_batch MASK_LABELS (pl, y) (c, p, o) = Ok st →
  ∃ d, evaluate_segmentation MASK_LABELS pl y = Ok d ∧
       st = (c + agreements pl y, p + Z.of_nat (length pl), Some d).
Proof.
  unfold check_accuracy_batch, torch_eq. intros H.
  destruct (evaluate_segmentation MASK_LABELS pl y) as [d|] eqn:Hd.
  - pose proof (evaluate_segmentation_Ok_length _ _ _ _ Hd) as Hlen.
    rewrite decide_True in H by done. rewrite !bind_Ok in H.
    injection H as <-. by exists d.
  - repeat case_match; done.
Qed.

Lemma check_accuracy_loop MASK_LABELS loader : ∀ c p o c' p' o',
  foldM (check_accuracy_batch MASK_LABELS) loader (c, p, o) = Ok (c', p', o') →
  c' = c + total_agreements loader ∧
  p' = p + total_pixels_of loader ∧
  Forall (λ batch : list Z * list Z, length batch.1 = length batch.2) loader ∧
  match last loader with
  | Some (pl, y) => ∃ d, o' = Some d ∧ evaluate_segmentation MASK_LABELS pl y = Ok d
  | None => o' = o
  end.
Proof.
  induction loader as [|[pl y] loader IH]; intros c p o c' p' o' H.
  - injection H as <- <- <-. cbn. repeat split; lia || done || constructor.
  - cbn [foldM] in H.
    destruct (check_accuracy_batch MASK_LABELS (pl, y) (c, p, o)) as [st|] eqn:Hb;
      [rewrite bind_Ok in H|done].
    apply check_accuracy_batch_Ok in Hb as (d & Hd & ->).
    apply IH in H as (-> & -> & Hlens & Hlast).
    unfold total_agreements, total_pixels_of. cbn [foldr fst snd].
    split; [lia|]. split; [lia|].
    split; [constructor; [by eapply evaluate_segmentation_Ok_length|done]|].
    destruct loader as [|b loader]; [by exists d|].
    rewrite last_cons_cons.
    destruct (last (b :: loader)) as [[pl' y']|] eqn:Hl; [done|].
    by apply last_None in Hl.
Qed.

Lemma total_agreements_range loader :
  Forall (λ batch : list Z * list Z, length batch.1 = length batch.2) loader →
  0 ≤ total_agreements loader ≤ total_pixels_of loader.
Proof.
  induction 1 as [|[pl y] loader Hlen _ IH]; [done|].
  cbn [fst snd] in Hlen. unfold total_agreements, total_pixels_of in *.
  cbn [foldr fst snd]. pose proof (agreements_range pl y). lia.
Qed.

(** X21: when [check_accuracy] returns, [num_pixels] is the number of
    predicted pixels over all batches, [num_correct] the number of
    agreements over all batches (hence between 0 and [num_pixels]), and the
    dictionary is the result of [evaluate_segmentation] on the last batch
    alone. *)
Theorem check_accuracy_returns (MASK_LABELS : nat) (loader : list (list Z * list Z))
    num_correct num_pixels dict_eval :
  check_accuracy MASK_LABELS loader = Returns (num_correct, num_pixels, dict_eval) →
  num_correct = total_agreements loader ∧
  num_pixels = total_pixels_of loader ∧
  0 ≤ num_correct ≤ num_pixels ∧
  ∃ preds_labels y,
    last loader = Some (preds_labels, y) ∧
    evaluate_segmentation MASK_LABELS preds_labels y = Ok dict_eval.
Proof.
  unfold check_accuracy. intros H.
  destruct (foldM _ loader _) as [[[c p] [d|]]|] eqn:Hloop; simplify_eq.
  apply check_accuracy_loop in Hloop as (-> & -> & Hlens & Hlast).
  rewrite !Z.add_0_l. split; [done|]. split; [done|].
  split; [by apply total_agreements_range|].
  destruct (last loader) as [[pl y]|]; [|done].
  destruct Hlast as (d' & [= <-] & Hd). by exists pl, y.
Qed.

Lemma check_accuracy_returns_witness :
  ∃ c p d,
    check_accuracy 2 [(sample_pred, sample_label)] = Returns (c, p, d) ∧
    c = total_agreements [(sample_pred, sample_label)] ∧
    p = total_pixels_of [(sample_pred, sample_label)] ∧
    0 ≤ c ≤ p ∧
    ∃ preds_labels y,
      last [(sample_pred, sample_label)] = Some (preds_labels, y) ∧
      evaluate_segmentation 2 preds_labels y = Ok d.
Proof.
  do 3 eexists. split; [vm_compute; reflexivity|].
  apply (check_accuracy_returns 2 [(sample_pred, sample_label)]).
  vm_compute. reflexivity.
Defined.

Lemma check_accuracy_batch_enough MASK_LABELS pl y c p o :
  well_formed_batch (pl, y) →
  (MASK_LABELS ≤ length (np_unique y))%nat →
  ∃ d, check_accuracy_batch MASK_LABELS (pl, y) (c, p, o)
       = Ok (c + agreements pl y, p + Z.of_nat (length pl), Some d).
Proof.
  intros [Hlen Hne] Henough. cbn [fst snd] in *.
  destruct (evaluate_segmentation_is_Ok MASK_LABELS pl y) as [d Hd]; [done..|].
  exists d. unfold check_accuracy_batch, torch_eq.
  by rewrite decide_True, bind_Ok, Hd by done.
Qed.

Lemma check_accuracy_batch_absent MASK_LABELS pl y st :
  well_formed_batch (pl, y) →
  ¬ (MASK_LABELS ≤ length (np_unique y))%nat →
  check_accuracy_batch MASK_LABELS (pl, y) st = Raise IndexError.
Proof.
  intros [Hlen Hne] Habsent. cbn [fst snd] in *. destruct st as [[c p] o].
  unfold check_accuracy_batch, torch_eq.
  rewrite decide_True, bind_Ok by done.
  by rewrite evaluate_segmentation_absent_class by (done || lia).
Qed.

Lemma check_accuracy_loop_outcome MASK_LABELS loader : ∀ c p o,
  Forall well_formed_batch loader →
  (Forall (λ batch, MASK_LABELS ≤ length (np_unique batch.2))%nat loader ∧
   ∃ c' p' o', foldM (check_accuracy_batch MASK_LABELS) loader (c, p, o) = Ok (c', p', o')
               ∧ (loader ≠ [] → is_Some o') ∧ (loader = [] → o' = o)) ∨
  (¬ Forall (λ batch, MASK_LABELS ≤ length (np_unique batch.2))%nat loader ∧
   foldM (check_accuracy_batch MASK_LABELS) loader (c, p, o) = Raise IndexError).
Proof.
  induction loader as [|[pl y] loader IH]; intros c p o Hwf.
  - left. split; [constructor|]. by exists c, p, o.
  - apply Forall_cons in Hwf as [Hb Hwf]. cbn [foldM].
    destruct (decide (MASK_LABELS ≤ length (np_unique y))%nat) as [Henough|Habsent].
    + destruct (check_accuracy_batch_enough MASK_LABELS pl y c p o Hb Henough)
        as [d ->].
      rewrite bind_Ok.
      destruct (IH (c + agreements pl y) (p + Z.of_nat (length pl)) (Some d) Hwf)
        as [[Hall (c' & p' & o' & Hrun & Hsome & _)]|[Hnot Hrun]].
      * left. split; [by constructor|]. exists c', p', o'. split; [done|].
        split; [|done].
        intros _. destruct loader; [|by apply Hsome].
        injection Hrun as <- <- <-. by eexists.
      * right. split; [|done]. by intros [_ ?]%Forall_cons.
    + rewrite check_accuracy_batch_absent by done.
      right. split; [|done]. by intros [? _]%Forall_cons.
Qed.

(** X22: on a loader whose batches are well formed, [check_accuracy]
    returns exactly when there is at least one batch and the ground truth of
    every batch holds at least [MASK_LABELS] distinct labels; with no batch
    it ends in the unassigned [dict_eval], and with a batch that lacks a
    class in an index error. *)
Theorem check_accuracy_defined (MASK_LABELS : nat) (loader : list (list Z * list Z)) :
  Forall well_formed_batch loader →
  ((∃ r, check_accuracy MASK_LABELS loader = Returns r)
   ↔ loader ≠ [] ∧
     Forall (λ batch, MASK_LABELS ≤ length (np_unique batch.2))%nat loader) ∧
  (loader = [] →
   check_accuracy MASK_LABELS loader = Fails (UnboundLocalError "dict_eval")) ∧
  (¬ Forall (λ batch, MASK_LABELS ≤ length (np_unique batch.2))%nat loader →
   check_accuracy MASK_LABELS loader = Fails (Raised IndexError)).
Proof.
  intros Hwf. unfold check_accuracy.
  destruct (check_accuracy_loop_outcome MASK_LABELS loader 0 0 None Hwf)
    as [[Hall (c' & p' & o' & -> & Hsome & Hnone)]|[Hnot ->]].
  - split; [|split].
    + split.
      * intros [r Hr]. split; [|done]. intros ->.
        by rewrite Hnone in Hr.
      * intros [Hne _]. destruct (Hsome Hne) as [d ->]. by eexists.
    + intros ->. by rewrite Hnone.
    + done.
  - split; [|split].
    + split; [by intros [r Hr]|]. by intros [_ ?].
    + intros ->. destruct Hnot. constructor.
    + done.
Qed.

Lemma check_accuracy_defined_witness :
  ((∃ r, check_accuracy 2 [(sample_pred, sample_label)] = Returns r)
   ↔ [(sample_pred, sample_label)] ≠ [] ∧
     Forall (λ batch, 2 ≤ length (np_unique batch.2))%nat
            [(sample_pred, sample_label)]) ∧
  ([(sample_pred, sample_label)] = [] →
   check_accuracy 2 [(sample_pred, sample_label)]
   = Fails (UnboundLocalError "dict_eval")) ∧
  (¬ Forall (λ batch, 2 ≤ length (np_unique batch.2))%nat
            [(sample_pred, sample_label)] →
   check_accuracy 2 [(sample_pred, sample_label)] = Fails (Raised IndexError)).
Proof.
  apply (check_accuracy_defined 2 [(sample_pred, sample_label)]).
  repeat constructor. discriminate.
Defined.

(** ** get_weights *)

Lemma Qplus_inject_Z a b : (inject_Z a + inject_Z b)%Q = inject_Z (a + b).
Proof. unfold Qplus, inject_Z. cbn. f_equal. lia. Qed.

Lemma get_weights_step_counts n (f : nat → Z) tp o mask :
  get_weights_step n ((λ i, inject_Z (f i)) <$> seq 0 n, tp, o) mask
  = ((λ i, inject_Z (f i + class_pixels (pixels mask) (Z.of_nat i))) <$> seq 0 n,
     (if tp =? 0 then Z.of_nat (width mask) * Z.of_nat (channels mask) else tp),
     Some mask).
Proof.
  unfold get_weights_step. f_equal. f_equal.
  rewrite zip_with_fmap_l, zip_with_fmap_r, zip_with_diag.
  apply list_fmap_ext. intros _ i _. apply Qplus_inject_Z.
Qed.

Lemma get_weights_loop n masks : ∀ (f : nat → Z) tp o,
  foldl (get_weights_step n) ((λ i, inject_Z (f i)) <$> seq 0 n, tp, o) masks
  = ((λ i, inject_Z (foldl (λ acc mask, acc + class_pixels (pixels mask) (Z.of_nat i))
                           (f i) masks)) <$> seq 0 n,
     foldl (λ tp mask, if tp =? 0 then Z.of_nat (width mask) * Z.of_nat (channels mask)
                       else tp) tp masks,
     foldl (λ _ mask, Some mask) o masks).
Proof.
  induction masks as [|mask masks IH]; intros f tp o; [done|].
  cbn [foldl]. rewrite get_weights_step_counts.
  apply (IH (λ i, f i + class_pixels (pixels mask) (Z.of_nat i))).
Qed.

Lemma total_pixels_kept masks : ∀ tp,
  tp ≠ 0 →
  foldl (λ tp mask, if tp =? 0 then Z.of_nat (width mask) * Z.of_nat (channels mask)
                    else tp) tp masks = tp.
Proof.
  induction masks as [|mask masks IH]; intros tp Htp; [done|].
  cbn [foldl]. rewrite (proj2 (Z.eqb_neq tp 0)) by done. by apply IH.
Qed.

Lemma last_mask_foldl masks : ∀ (o : option image),
  foldl (λ _ mask, Some mask) o masks = from_option Some o (last masks).
Proof.
  induction masks as [|mask masks IH]; intros o; [done|].
  cbn [foldl]. rewrite IH. destruct masks as [|mask' masks]; [done|].
  rewrite last_cons_cons.
  destruct (last (mask' :: masks)) eqn:Hl; [done|]. by apply last_None in Hl.
Qed.

Lemma Qeq_bool_div_inject_Z c t :
  0 < t → Qeq_bool (inject_Z c / inject_Z t) 0 = (c =? 0).
Proof.
  intros Ht. destruct t as [|t|t]; try lia.
  unfold Qeq_bool, Qdiv, Qmult, Qinv, inject_Z. cbn.
  destruct c; reflexivity.
Qed.

(** X23: when the first image has a positive width times channels, the
    last image a positive height, and [multiplier] one entry per label,
    [get_weights] returns one finite weight per label: 0 for a label that
    occurs in no mask, and otherwise the multiplier divided by the label's
    count over the pixel total (width times channels of the first image
    times height of the last). *)
Theorem get_weights_value (first last_mask : image) (rest : list image)
    (num_labels : nat) (multiplier : list Q) :
  last (first :: rest) = Some last_mask →
  (0 < width first * channels first)%nat →
  (0 < height last_mask)%nat →
  length multiplier = num_labels →
  ∃ out, get_weights (first :: rest) num_labels multiplier = Returns out ∧
    length out = num_labels ∧
    ∀ i m, multiplier !! i = Some m →
      out !! i
      = Some (Fin (if label_count (first :: rest) (Z.of_nat i) =? 0 then 0
                   else m / (inject_Z (label_count (first :: rest) (Z.of_nat i))
                             / inject_Z (Z.of_nat (width first) * Z.of_nat (channels first)
                                         * Z.of_nat (height last_mask)))))%Q.
Proof.
  intros Hlast Hwc Hh Hmul. unfold get_weights.
  assert (replicate num_labels 0%Q
          = (λ i : nat, inject_Z ((λ _, 0) i)) <$> seq 0 num_labels) as ->.
  { apply list_eq. intros i. rewrite list_lookup_fmap.
    destruct (decide (i < num_labels)%nat).
    - by rewrite lookup_replicate_2, lookup_seq_lt.
    - rewrite lookup_seq_ge by lia. apply lookup_replicate_None. lia. }
  rewrite get_weights_loop, last_mask_foldl, Hlast. cbn [from_option].
  cbn [foldl]. rewrite Z.eqb_refl, total_pixels_kept by lia.
  set (T := Z.of_nat (width first) * Z.of_nat (channels first)
            * Z.of_nat (height last_mask)).
  assert (0 < T) as HT by (unfold T; lia).
  rewrite decide_True by (by rewrite !length_fmap, length_seq).
  eexists. split; [done|].
  split; [rewrite length_zip_with, !length_fmap, length_seq; lia|].
  intros i m Hm.
  assert (i < num_labels)%nat as Hi by (apply lookup_lt_Some in Hm; lia).
  rewrite lookup_zip_with, Hm. cbn.
  rewrite !list_lookup_fmap, lookup_seq_lt by done. cbn.
  unfold np_true_divide. rewrite Qeq_bool_inject_Z, (proj2 (Z.eqb_neq T 0)) by lia.
  unfold np_divide_where. rewrite Qeq_bool_div_inject_Z by done.
  unfold label_count. cbn [foldl].
  by destruct (_ =? 0).
Qed.

Lemma get_weights_value_witness :
  ∃ out, get_weights [sample_mask] 4 [1; 1; 1; 1]%Q = Returns out ∧
    length out = 4%nat ∧
    ∀ i m, [1; 1; 1; 1]%Q !! i = Some m →
      out !! i
      = Some (Fin (if label_count [sample_mask] (Z.of_nat i) =? 0 then 0
                   else m / (inject_Z (label_count [sample_mask] (Z.of_nat i))
                             / inject_Z (Z.of_nat (width sample_mask)
                                         * Z.of_nat (channels sample_mask)
                                         * Z.of_nat (height sample_mask)))))%Q.
Proof.
  apply (get_weights_value sample_mask sample_mask [] 4 [1; 1; 1; 1]%Q);
    [reflexivity|cbn; lia|cbn; lia|reflexivity].
Defined.

(** The message quotes the key as [repr] does: in double quotes when the
    key holds a single quote and no double quote. *)
Example key_message_single_quote :
  key_message "it's"
  = "Key " +:+ dquote +:+ "it's" +:+ dquote
      +:+ " is different from expected " +:+ dquote +:+ "state_dict" +:+ dquote.
Proof. reflexivity. Qed.

Lemma load_checkpoint_fallback_KeyError_witness :
  load_checkpoint bare_state_dict missing_key None None []
  = ([] ++ [(Model, PDict bare_state_dict)],
     Raise (ValueError (key_message "conv.bias"))).
Proof.
  apply (load_checkpoint_fallback_KeyError bare_state_dict missing_key None None []
           "conv.bias"); [vm_compute; reflexivity|reflexivity].
Defined.

(** ** Maps of different shapes *)

Lemma agreements_take label : ∀ pred,
  agreements (take (length label) pred) label = agreements pred label.
Proof.
  unfold agreements.
  induction label as [|l label IH]; intros [|p pred]; try done.
  cbn [length take zip_with]. by rewrite !np_sum_cons, IH.
Qed.

Lemma evaluate_segmentation_raises MASK_LABELS pred label e :
  compute_global_accuracy pred label = Raise e →
  evaluate_segmentation MASK_LABELS pred label = Raise e.
Proof. intros H. unfold evaluate_segmentation. by rewrite H. Qed.

(** C7, amended: on flat maps of different lengths [evaluate_segmentation]
    raises an exception, which nothing catches, and returns no result: the
    index error of [compute_global_accuracy] when the prediction is shorter
    than the label, its division by zero when the label is empty, and
    otherwise the [ValueError] of the length check in [precision_score].
    [compute_global_accuracy] itself raises in the first two cases only; for
    a prediction longer than a non-empty label it returns the fraction of
    agreements over the first [len(label)] positions.  Tensors of different
    shapes with the same number of entries are flattened and scored without
    any error. *)
Theorem shape_mismatch_outcome (MASK_LABELS : nat) :
  (∀ pred label : list Z,
     length pred ≠ length label →
     is_Raise (evaluate_segmentation MASK_LABELS pred label) ∧
     (is_Raise (compute_global_accuracy pred label)
      ↔ (length pred < length label)%nat ∨ label = []) ∧
     ((length pred < length label)%nat →
      compute_global_accuracy pred label = Raise IndexError ∧
      evaluate_segmentation MASK_LABELS pred label = Raise IndexError) ∧
     (label = [] →
      compute_global_accuracy pred label = Raise ZeroDivisionError ∧
      evaluate_segmentation MASK_LABELS pred label = Raise ZeroDivisionError) ∧
     ((length label < length pred)%nat → label ≠ [] →
      compute_global_accuracy pred label
      = Ok (Qdiv (inject_Z (agreements (take (length label) pred) label))
                 (inject_Z (Z.of_nat (length label)))) ∧
      ∃ msg, evaluate_segmentation MASK_LABELS pred label = Raise (ValueError msg))) ∧
  (∀ pred label : tensor,
     shape pred ≠ shape label →
     length (entries pred) = length (entries label) →
     entries label ≠ [] →
     (MASK_LABELS ≤ length (np_unique (entries label)))%nat →
     ∃ d, evaluate_segmentation_tensors MASK_LABELS pred label = Ok d ∧
          d !! "accuracy"
          = Some (Fin (Qdiv (inject_Z (agreements (entries pred) (entries label)))
                            (inject_Z (Z.of_nat (length (entries label))))))).
Proof.
  split.
  - intros pred label Hlen.
    split; [|split; [|split; [|split]]].
    + unfold evaluate_segmentation.
      destruct (compute_global_accuracy pred label) as [acc|e]; [|by eexists].
      rewrite bind_Ok.
      destruct (precision_score_mismatch pred label Hlen) as [e ->]. by eexists.
    + split.
      * intros [e He].
        destruct (decide (length pred < length label)%nat); [by left|right].
        destruct label as [|x label]; [done|].
        rewrite compute_global_accuracy_value in He by (done || lia). done.
      * intros [Hshort| ->].
        -- rewrite compute_global_accuracy_short by done. by eexists.
        -- rewrite compute_global_accuracy_empty. by eexists.
    + intros Hshort.
      pose proof (compute_global_accuracy_short pred label Hshort) as Hacc.
      split; [done|]. by apply evaluate_segmentation_raises.
    + intros ->. split; [done|]. by apply evaluate_segmentation_raises.
    + intros Hlong Hne.
      rewrite agreements_take.
      pose proof (compute_global_accuracy_value pred label Hne ltac:(lia)) as Hacc.
      split; [done|]. unfold evaluate_segmentation. rewrite Hacc, bind_Ok.
      unfold precision_score, check_consistent_length.
      rewrite decide_False by done. by eexists.
  - intros pred label _ Hlen Hne Hall. unfold evaluate_segmentation_tensors, flatten.
    destruct (evaluate_segmentation_is_Ok MASK_LABELS (entries pred) (entries label))
      as [d Hd]; [done..|].
    exists d. split; [done|].
    unfold evaluate_segmentation in Hd.
    rewrite compute_global_accuracy_value, bind_Ok in Hd by (done || lia).
    rewrite precision_score_same_length, bind_Ok in Hd by done.
    rewrite recall_score_same_length, bind_Ok in Hd by done.
    rewrite compute_iou_same_length, bind_Ok in Hd by done.
    rewrite dice_coef_multilabel_same_length, bind_Ok in Hd by done.
    apply eval_loop_filled in Hd as [Hacc _].
    rewrite Hacc. apply lookup_singleton_eq.
Qed.

Lemma shape_mismatch_outcome_witness :
  (is_Raise (evaluate_segmentation 2 [0; 1; 2] [0; 1]) ∧
   (is_Raise (compute_global_accuracy [0; 1; 2] [0; 1])
    ↔ (length [0; 1; 2] < length [0; 1])%nat ∨ [0; 1] = []) ∧
   ((length [0; 1; 2] < length [0; 1])%nat →
    compute_global_accuracy [0; 1; 2] [0; 1] = Raise IndexError ∧
    evaluate_segmentation 2 [0; 1; 2] [0; 1] = Raise IndexError) ∧
   ([0; 1] = [] →
    compute_global_accuracy [0; 1; 2] [0; 1] = Raise ZeroDivisionError ∧
    evaluate_segmentation 2 [0; 1; 2] [0; 1] = Raise ZeroDivisionError) ∧
   ((length [0; 1] < length [0; 1; 2])%nat → [0; 1] ≠ [] →
    compute_global_accuracy [0; 1; 2] [0; 1]
    = Ok (Qdiv (inject_Z (agreements (take (length [0; 1]) [0; 1; 2]) [0; 1]))
               (inject_Z (Z.of_nat (length [0; 1])))) ∧
    ∃ msg, evaluate_segmentation 2 [0; 1; 2] [0; 1] = Raise (ValueError msg))) ∧
  (∃ d, evaluate_segmentation_tensors 2 sample_pred_tensor sample_label_tensor = Ok d ∧
        d !! "accuracy"
        = Some (Fin (Qdiv (inject_Z (agreements (entries sample_pred_tensor)
                                                (entries sample_label_tensor)))
                          (inject_Z (Z.of_nat (length (entries sample_label_tensor))))))).
Proof.
  split.
  - apply (proj1 (shape_mismatch_outcome 2) [0; 1; 2] [0; 1]). cbn. lia.
  - apply (proj2 (shape_mismatch_outcome 2) sample_pred_tensor sample_label_tensor).
    + cbn. intros [=].
    + reflexivity.
    + cbn. intros [=].
    + vm_compute. lia.
Defined.
